(** * BEM time-marching simulator (assigment1.py): model and properties

    The script marches a three-bladed rotor through time with an explicit
    loop [for n in range(1, timerange)].  Every array of the script is
    written at time index [n] from values at index [n-1]; the model keeps
    one [State] per time index, so that [X_arr[k, i, n]] of the script is
    the field [X] of element [k] of blade [i] in [run n].

    Numbers are the real numbers of the Standard Library: a NumPy float64
    is read as the real it approximates, and NumPy's [inf]/[nan] results
    (a division by zero, a power of a negative base) have no counterpart.
    Equations are stated with the quotients the script writes; a bound that
    needs a divisor to be nonzero assumes it. *)

From Stdlib Require Import Reals Lra Lia List Bool Arith Sorted.
Import ListNotations.
Open Scope R_scope.

(** ** Comparisons and unit conversions *)

Definition Rle_b (x y : R) : bool := if Rle_dec x y then true else false.
Definition Rlt_b (x y : R) : bool := if Rlt_dec x y then true else false.

(** [np.deg2rad] and [np.rad2deg]. *)
Definition deg2rad (x : R) : R := x * (PI / 180).
Definition rad2deg (x : R) : R := x * (180 / PI).

(** ** Vectors and 3x3 matrices (rows of a NumPy 2-D array) *)

Definition vec : Type := (R * R * R)%type.
Definition mat : Type := (vec * vec * vec)%type.

Definition dot (u v : vec) : R :=
  let '(u0, u1, u2) := u in
  let '(v0, v1, v2) := v in
  u0 * v0 + u1 * v1 + u2 * v2.

Definition vadd (u v : vec) : vec :=
  let '(u0, u1, u2) := u in
  let '(v0, v1, v2) := v in
  (u0 + v0, u1 + v1, u2 + v2).

(** [np.transpose]. *)
Definition transpose (m : mat) : mat :=
  let '((m00, m01, m02), (m10, m11, m12), (m20, m21, m22)) := m in
  ((m00, m10, m20), (m01, m11, m21), (m02, m12, m22)).

(** [m @ v] for a matrix and a vector. *)
Definition matvec (m : mat) (v : vec) : vec :=
  let '(r0, r1, r2) := m in (dot r0 v, dot r1 v, dot r2 v).

(** [m @ p] for two matrices. *)
Definition matmul (m p : mat) : mat :=
  let '(c0, c1, c2) := transpose p in
  let '(r0, r1, r2) := m in
  ((dot r0 c0, dot r0 c1, dot r0 c2),
   (dot r1 c0, dot r1 c1, dot r1 c2),
   (dot r2 c0, dot r2 c1, dot r2 c2)).

(** ** Lists as one-dimensional arrays *)

(** [xs[i] = v]; an index out of range raises in Python and is never
    reached by the loops below. *)
Fixpoint upd {A : Type} (i : nat) (v : A) (xs : list A) : list A :=
  match xs, i with
  | [], _ => []
  | _ :: xs', O => v :: xs'
  | x :: xs', S j => x :: upd j v xs'
  end.

(** Element-wise [ys + zs] and [ys * zs] of two arrays of equal length. *)
Fixpoint vplus (ys zs : list R) : list R :=
  match ys, zs with
  | y :: ys', z :: zs' => (y + z) :: vplus ys' zs'
  | _, _ => []
  end.

Fixpoint vmult (ys zs : list R) : list R :=
  match ys, zs with
  | y :: ys', z :: zs' => (y * z) :: vmult ys' zs'
  | _, _ => []
  end.

(** [np.sum(arr, axis=1)[:, n]]: the columns [arr[:, i, n]] of the blades
    added element by element, starting from the zero array of length [len]. *)
Definition sum_axis1 (len : nat) (cols : list (list R)) : list R :=
  fold_left vplus cols (repeat 0 len).

(** [np.trapz(y, x)]: the sum of [(x[j+1] - x[j]) * (y[j+1] + y[j]) / 2]. *)
Fixpoint trapz (y x : list R) : R :=
  match y, x with
  | y0 :: ((y1 :: _) as y'), x0 :: ((x1 :: _) as x') =>
      (x1 - x0) * (y1 + y0) / 2 + trapz y' x'
  | _, _ => 0
  end.

(** ** Blade data and polar data *)

(** One row of [bladedat.txt]: radius, twist (degrees), chord, thickness. *)
Record Airfoil : Type := mkAirfoil {
  af_r : R;
  af_beta_deg : R;
  af_c : R;
  af_tc : R
}.

(** The six values returned by [force_coeffs_10MW]. *)
Record Coeffs : Type := mkCoeffs {
  cl : R;
  cd : R;
  cm : R;
  f_stat : R;
  cl_inv : R;
  cl_fs : R
}.

(** ** Constants of the script *)

Definition B : nat := 3.
Definition H : R := 119.
Definition L_s : R := 7.1.
(** The rotor radius, [R] in the script. *)
Definition R_rotor : R := 89.17.

Definition theta_cone : R := 0.
Definition theta_yaw : R := deg2rad 0.
Definition theta_tilt : R := 0.

Definition rho : R := 1.225.
Definition omega : R := 7.229 * 2 * PI / 60.
Definition delta_t : R := 0.15.
Definition timerange : nat := 1200.
Definition V_0 : R := 9.
Definition k_dwf : R := 0.6.

(** ** Transformation matrices *)

Definition a1 : mat :=
  ((1, 0, 0),
   (0, cos theta_yaw, sin theta_yaw),
   (0, - sin theta_yaw, cos theta_yaw)).

Definition a2 : mat :=
  ((cos theta_tilt, 0, - sin theta_tilt),
   (0, 1, 0),
   (sin theta_tilt, 0, cos theta_tilt)).

Definition a3 : mat := ((1, 0, 0), (0, 1, 0), (0, 0, 1)).

Definition a12 : mat := matmul (matmul a3 a2) a1.
Definition a21 : mat := transpose a12.

Definition a34 : mat :=
  ((cos theta_cone, 0, - sin theta_cone),
   (0, 1, 0),
   (sin theta_cone, 0, cos theta_cone)).

Definition rt1 : vec := (H, 0, 0).
Definition rs1 : vec := matvec a21 (0, 0, - L_s).

Definition a23 (theta : R) : mat :=
  ((cos theta, sin theta, 0),
   (- sin theta, cos theta, 0),
   (0, 0, 1)).

Definition a14 (theta : R) : mat := matmul (matmul a34 (a23 theta)) a12.

(** ** One time slice of the three-dimensional arrays *)

(** The entries [X_arr[k, i, n]] of one element [k], blade [i], time [n]. *)
Record Slice : Type := mkSlice {
  x1 : R; y1 : R; z1 : R;
  V0x : R; V0y : R; V0z : R;
  V_rel_y : R; V_rel_z : R;
  Wy : R; Wz : R;
  Wy_qs : R; Wz_qs : R;
  Wy_int : R; Wz_int : R;
  pt : R; pn : R;
  fs : R;
  cl_used : R        (* cl_arr *)
}.

(** [np.zeros]. *)
Definition zero_slice : Slice :=
  mkSlice 0 0 0 0 0 0 0 0 0 0 0 0 0 0 0 0 0 0.

(** The scalars of one pass through the innermost loop body. *)
Record Locals : Type := mkLocals {
  phi : R;
  aoa_deg : R;
  coeffs : Coeffs;
  V_rel_abs : R;
  a : R;
  f_g : R;
  V_f_W : R;
  l : R;
  d : R;
  p_z : R;
  p_y : R;
  F : R
}.

(** [phi = np.arctan(V_rel_z / (-V_rel_y))]. *)
Definition inflow_angle (vy vz : R) : R := atan (vz / (- vy)).

(** The Prandtl factor of the loop body. *)
Definition prandtl (ph r : R) : R :=
  if Rle_b (sin (Rabs ph)) 0.01 || Rle_b (R_rotor - r) 0.005
  then 1
  else (2 / PI) * acos (exp (- (INR B / 2) * ((R_rotor - r) / (r * sin (Rabs ph))))).

(** The pitch schedule at the head of the time loop; [old] is the value
    the variable [theta_pitch] holds when the step starts. *)
Definition pitch_schedule (use_pitch : bool) (t old : R) : R :=
  if use_pitch then
    if Rle_b 100 t && Rle_b t 150 then deg2rad 2
    else if Rlt_b 150 t then 0
    else old
  else old.

(** The azimuth assignment of blade [i]: [prev] is [theta_blade_arr[:, n-1]]
    and [cur] is [theta_blade_arr[:, n]] as filled so far. *)
Definition set_azimuth (i : nat) (prev cur : list R) : list R :=
  match i with
  | 0%nat => upd i (nth 0 prev 0 + omega * delta_t) cur
  | 1%nat => upd i (nth 0 cur 0 + omega * delta_t + 0.666 * PI) cur
  | 2%nat => upd i (nth 0 cur 0 + omega * delta_t + 1.333 * PI) cur
  | _ => cur
  end.

(** ** The two-argument arctangent of the specification *)

(** [atan2 y x], as [np.arctan2] and [math.atan2] define it: the angle in
    (-PI, PI] of the point [(x, y)].  The script never calls it; it is what
    the inflow angle of the loop body is compared with. *)
Definition atan2 (y x : R) : R :=
  if Rlt_b 0 x then atan (y / x)
  else if Rlt_b x 0 then
    if Rle_b 0 y then atan (y / x) + PI else atan (y / x) - PI
  else if Rlt_b 0 y then PI / 2
  else if Rlt_b y 0 then - (PI / 2)
  else 0.

(** ** A two-element blade and a flat polar, to instantiate statements *)

Definition sample_blade : list Airfoil :=
  [mkAirfoil 40 0 3 24.1; mkAirfoil 89.17 0 1 24.1].

Definition sample_polar (aoa tck : R) : Coeffs := mkCoeffs 1 0.01 0 1 1 1.

(** A blade made of the tip element alone, and a polar with a large negative
    lift coefficient. *)
Definition tip_only_blade : list Airfoil := [mkAirfoil 89.17 0 1 24.1].

Definition steep_polar (aoa tck : R) : Coeffs := mkCoeffs (-10000) 0 0 0 0 0.


(** ** The spring-mounted airfoil of aeroelastic_exercise.py *)

Module Pend.

Section Model.

(** [np.interp(x, alpha_tab, cl_tab)] and the same for the columns
    [f_stat_tab], [cl_inv_tab] and [cl_fs_tab] of the airfoil file, as
    functions of the angle [x] in degrees. *)
Variables interp_cl interp_f_stat interp_cl_inv interp_cl_fs : R -> R.

(** [z1, z2, z3 = y] with dynamic stall and [z1, z2 = y] without: a state
    vector of another length raises [ValueError]. *)
Definition unpack (use_stall : bool) (y : list R) : option (R * R * R) :=
  if use_stall then
    match y with
    | [z1; z2; z3] => Some (z1, z2, z3)
    | _ => None
    end
  else
    match y with
    | [z1; z2] => Some (z1, z2, 0)
    | _ => None
    end.

(** [pend(y, t, m, k, c, V_0, alpha_g, rho, s, use_stall)]: the right-hand
    side handed to [odeint]. *)
Definition pend (y : list R) (t m k c V_0 alpha_g rho s : R) (use_stall : bool)
  : option (list R) :=
  match unpack use_stall y with
  | None => None
  | Some (z1, z2, z3) =>
      let phi := atan (z2 / V_0) in
      let alpha := alpha_g + phi in
      let V_rel := sqrt (z2 ^ 2 + V_0 ^ 2) in
      let f_stat := interp_f_stat (rad2deg alpha) in
      let cl_inv := interp_cl_inv (rad2deg alpha) in
      let cl_fs := interp_cl_fs (rad2deg alpha) in
      let tau := 4 * c / V_rel in
      let cl :=
        if use_stall then z3 * cl_inv + (1 - z3) * cl_fs
        else interp_cl (rad2deg alpha) in
      let input_force := 0.5 * rho * V_rel ^ 2 * c * s * cl * cos phi in
      if use_stall
      then Some [z2; (- k * z1 - input_force) / m; (f_stat - z3) / tau]
      else Some [z2; (- k * z1 - input_force) / m]
  end.

(** The initial condition [y0] of the script. *)
Definition y0 (use_stall : bool) : list R :=
  if use_stall then [0.02; 0; 0] else [0.02; 0].

End Model.

End Pend.

(** ** The simulation, for given blade data, polar lookup and switches *)

Section Simulation.

(** The rows of [bladedat.txt]; [r], [beta_deg], [c] and [tc] are its columns. *)
Variable airfoils : list Airfoil.

(** [force_coeffs_10MW(aoa_deg, tc, ...)] with the polar tables of the script
    already supplied: the interpolation module is an external collaborator. *)
Variable force_coeffs_10MW : R -> R -> Coeffs.

(** The four switches at the top of the script. *)
Variables use_wind_shear use_pitch use_dwf use_stall : bool.

Definition wind_shear : R := if use_wind_shear then 0.2 else 0.

Definition airfoil (k : nat) : Airfoil := nth k airfoils (mkAirfoil 0 0 0 0).
Definition r (k : nat) : R := af_r (airfoil k).
Definition beta_deg (k : nat) : R := af_beta_deg (airfoil k).
Definition c (k : nat) : R := af_c (airfoil k).
Definition tc (k : nat) : R := af_tc (airfoil k).

(** The body of [for k in range(len(r))] for blade matrix [m14], pitch
    [theta_pitch] and the slice [prev] of time index [n-1].  An array that a
    switch leaves unwritten ([fs_arr] without dynamic stall, [Wy_int_arr] and
    [Wz_int_arr] without the wake filter) keeps the 0 of [np.zeros].  The
    power [x ** wind_shear] is [Rpower], which is 1 for the exponent 0. *)
Definition element (m14 : mat) (theta_pitch : R) (k : nat) (prev : Slice)
  : Slice * Locals :=
  let a41 := transpose m14 in
  let rb1 := matvec a41 (r k, 0, 0) in
  let '(x1_n, y1_n, z1_n) := vadd (vadd rt1 rs1) rb1 in
  let V0_array := (0, 0, V_0 * Rpower (x1_n / H) wind_shear) in
  let '(V0x_n, V0y_n, V0z_n) := matvec m14 V0_array in
  let V_rel_y_n := V0y_n + Wy prev - omega * r k * cos theta_cone in
  let V_rel_z_n := V0z_n + Wz prev in
  let phi := inflow_angle V_rel_y_n V_rel_z_n in
  let aoa_deg := rad2deg phi - (beta_deg k + rad2deg theta_pitch) in
  let co := force_coeffs_10MW aoa_deg (tc k) in
  let V_rel_abs := sqrt (V_rel_y_n ^ 2 + V_rel_z_n ^ 2) in
  let fs_n :=
    if use_stall
    then f_stat co + (fs prev - f_stat co) * exp (- delta_t / (4 * c k / V_rel_abs))
    else 0 in
  let cl_n :=
    if use_stall
    then f_stat co * cl_inv co + (1 - fs_n) * cl_fs co
    else cl co in
  let a := - Wz prev / V_0 in
  let f_g := if Rle_b a 0.33 then 1 else 0.25 * (5 - 3 * a) in
  let V_f_W := sqrt (V0y_n ^ 2 + (V0z_n + f_g * Wz prev) ^ 2) in
  let l := 0.5 * rho * V_rel_abs ^ 2 * c k * cl_n in
  let d := 0.5 * rho * V_rel_abs ^ 2 * c k * cd co in
  let p_z :=
    if Nat.eqb k (length airfoils - 1) then 0
    else l * cos phi + d * sin phi in
  let p_y :=
    if Nat.eqb k (length airfoils - 1) then 0
    else l * sin phi - d * cos phi in
  let F := prandtl phi (r k) in
  let Wz_qs_n := (- INR B * l * cos phi) / (4 * PI * rho * r k * F * V_f_W) in
  let Wy_qs_n := (- INR B * l * sin phi) / (4 * PI * rho * r k * F * V_f_W) in
  let tau_1 := 1.1 / (1 - 1.3 * a) * R_rotor / V_0 in
  let tau_2 := (0.39 - 0.26 * (r k / R_rotor) ^ 2) * tau_1 in
  let Hy_dwf := Wy_qs_n + k_dwf * tau_1 * (Wy_qs_n - Wy_qs prev) / delta_t in
  let Hz_dwf := Wz_qs_n + k_dwf * tau_1 * (Wz_qs_n - Wz_qs prev) / delta_t in
  let Wy_int_n :=
    if use_dwf then Hy_dwf + (Wy_int prev - Hy_dwf) * exp (- delta_t / tau_1)
    else 0 in
  let Wz_int_n :=
    if use_dwf then Hz_dwf + (Wz_int prev - Hz_dwf) * exp (- delta_t / tau_1)
    else 0 in
  let Wy_n :=
    if use_dwf then Wy_int_n + (Wy prev - Wy_int_n) * exp (- delta_t / tau_2)
    else Wy_qs_n in
  let Wz_n :=
    if use_dwf then Wz_int_n + (Wz prev - Wz_int_n) * exp (- delta_t / tau_2)
    else Wz_qs_n in
  (mkSlice x1_n y1_n z1_n V0x_n V0y_n V0z_n V_rel_y_n V_rel_z_n
           Wy_n Wz_n Wy_qs_n Wz_qs_n Wy_int_n Wz_int_n p_y p_z fs_n cl_n,
   mkLocals phi aoa_deg co V_rel_abs a f_g V_f_W l d p_z p_y F).

(** [for k in range(len(r))]: [prev] holds the slices [arr[:, i, n-1]] of
    the blade, read at index [k]. *)
Definition element_loop (m14 : mat) (theta_pitch : R) (prev : list Slice)
  : list Slice :=
  map (fun k => fst (element m14 theta_pitch k (nth k prev zero_slice)))
      (seq 0 (length airfoils)).

(** ** State at one time index *)

Record State : Type := mkState {
  theta_pitch : R;              (* the variable theta_pitch after the step *)
  time : R;                     (* time_arr[n] *)
  theta_blade : list R;         (* theta_blade_arr[:, n] *)
  slices : list (list Slice);   (* [i][k]: the arrays at [k, i, n] *)
  P : R;                        (* P_arr[n] *)
  T_all : list R;               (* T_all_arr[:, n] *)
  T : R                         (* T_arr[n] *)
}.

(** The arrays after initialisation, at time index 0. *)
Definition init : State :=
  mkState 0 0
          (upd 2 (4 * PI / 3) (upd 1 (2 * PI / 3) (repeat 0 B)))
          (repeat (repeat zero_slice (length airfoils)) B)
          0 (repeat 0 B) 0.

(** The body of [for i in range(B)]: [acc] holds row [n] of the azimuth
    array and of the sliced arrays as filled by the blades before [i]. *)
Definition blade (pitch : R) (prev : State)
    (acc : list R * list (list Slice)) (i : nat) : list R * list (list Slice) :=
  let theta_n := set_azimuth i (theta_blade prev) (fst acc) in
  let m14 := a14 (nth i theta_n 0) in
  (theta_n, upd i (element_loop m14 pitch (nth i (slices prev) [])) (snd acc)).

(** Column [arr[:, i, n]] of a sliced array. *)
Definition column (f : Slice -> R) (sl : list (list Slice)) (i : nat) : list R :=
  map f (nth i sl []).

(** The body of [for n in range(1, timerange)]. *)
Definition step (n : nat) (prev : State) : State :=
  let t := INR n * delta_t in
  let pitch := pitch_schedule use_pitch t (theta_pitch prev) in
  let '(theta_n, sl_n) :=
    fold_left (blade pitch prev) (seq 0 B)
              (repeat 0 B, repeat (repeat zero_slice (length airfoils)) B) in
  let rs := map af_r airfoils in
  let len := length airfoils in
  let M_r :=
    trapz (vmult (sum_axis1 len (map (column pt sl_n) (seq 0 B))) rs) rs in
  let T_all_n :=
    upd 2 (trapz (column pn sl_n 2) rs)
      (upd 1 (trapz (column pn sl_n 1) rs)
        (upd 0 (trapz (column pn sl_n 0) rs) (repeat 0 B))) in
  let T_n := trapz (sum_axis1 len (map (column pn sl_n) (seq 0 B))) rs in
  mkState pitch t theta_n sl_n (omega * M_r) T_all_n T_n.

(** The state at time index [n]. *)
Fixpoint run (n : nat) : State :=
  match n with
  | O => init
  | S m => step (S m) (run m)
  end.

(** The state when the loop [for n in range(1, timerange)] has finished. *)
Definition simulate : State := run (timerange - 1).

(** ** The arrays of the script, read at an index *)

Definition slice (k i n : nat) : Slice :=
  nth k (nth i (slices (run n)) []) zero_slice.

Definition time_arr (n : nat) : R := time (run n).
Definition theta_blade_arr (i n : nat) : R := nth i (theta_blade (run n)) 0.
Definition V_rel_y_arr (k i n : nat) : R := V_rel_y (slice k i n).
Definition V_rel_z_arr (k i n : nat) : R := V_rel_z (slice k i n).
Definition Wy_arr (k i n : nat) : R := Wy (slice k i n).
Definition Wz_arr (k i n : nat) : R := Wz (slice k i n).
Definition Wy_qs_arr (k i n : nat) : R := Wy_qs (slice k i n).
Definition Wz_qs_arr (k i n : nat) : R := Wz_qs (slice k i n).
Definition pt_arr (k i n : nat) : R := pt (slice k i n).
Definition pn_arr (k i n : nat) : R := pn (slice k i n).
Definition fs_arr (k i n : nat) : R := fs (slice k i n).
Definition cl_arr (k i n : nat) : R := cl_used (slice k i n).
Definition T_arr (n : nat) : R := T (run n).
Definition P_arr (n : nat) : R := P (run n).
Definition T_all_arr (i n : nat) : R := nth i (T_all (run n)) 0.

Definition x1_arr (k i n : nat) : R := x1 (slice k i n).
Definition y1_arr (k i n : nat) : R := y1 (slice k i n).
Definition z1_arr (k i n : nat) : R := z1 (slice k i n).
Definition V0x_arr (k i n : nat) : R := V0x (slice k i n).
Definition V0y_arr (k i n : nat) : R := V0y (slice k i n).
Definition V0z_arr (k i n : nat) : R := V0z (slice k i n).
Definition Wy_int_arr (k i n : nat) : R := Wy_int (slice k i n).
Definition Wz_int_arr (k i n : nat) : R := Wz_int (slice k i n).

(** The pitch in force during step [n]. *)
Definition theta_pitch_at (n : nat) : R := theta_pitch (run n).

(** The pass through the loop body at element [k], blade [i], step [n]:
    the slice it stores and its scalars. *)
Definition iteration (k i n : nat) : Slice * Locals :=
  element (a14 (theta_blade_arr i n)) (theta_pitch_at n) k (slice k i (n - 1)).

Definition locals (k i n : nat) : Locals := snd (iteration k i n).

(** The values the polar lookup returns at element [k], blade [i], step [n]. *)
Definition lookup (k i n : nat) : Coeffs :=
  force_coeffs_10MW (aoa_deg (locals k i n)) (tc k).

(** ** Preliminaries *)

Lemma PI_gt_3 : 3 < PI.
Proof. pose proof PI2_3_2. lra. Qed.

Lemma Rle_b_true (x y : R) : Rle_b x y = true <-> x <= y.
Proof. unfold Rle_b. destruct (Rle_dec x y); split; intros; try easy. Qed.

Lemma Rle_b_false (x y : R) : Rle_b x y = false <-> y < x.
Proof.
  unfold Rle_b. destruct (Rle_dec x y); split; intros; try easy; lra.
Qed.

Lemma Rlt_b_true (x y : R) : Rlt_b x y = true <-> x < y.
Proof. unfold Rlt_b. destruct (Rlt_dec x y); split; intros; try easy. Qed.

Lemma Rlt_b_false (x y : R) : Rlt_b x y = false <-> y <= x.
Proof.
  unfold Rlt_b. destruct (Rlt_dec x y); split; intros; try easy; lra.
Qed.

Lemma nth_map_seq {A : Type} (f : nat -> A) (len i : nat) (dflt : A) :
  (i < len)%nat -> nth i (map f (seq 0 len)) dflt = f i.
Proof.
  intros Hi.
  rewrite (nth_indep _ dflt (f 0%nat)) by (rewrite length_map, length_seq; exact Hi).
  rewrite map_nth, seq_nth by exact Hi. reflexivity.
Qed.

(** ** Unfolding one step *)

Lemma theta_blade_step (n : nat) (st : State) :
  theta_blade (step n st) =
  let th0 := nth 0 (theta_blade st) 0 + omega * delta_t in
  [th0; th0 + omega * delta_t + 0.666 * PI; th0 + omega * delta_t + 1.333 * PI].
Proof. reflexivity. Qed.

Lemma theta_pitch_step (n : nat) (st : State) :
  theta_pitch (step n st) =
  pitch_schedule use_pitch (INR n * delta_t) (theta_pitch st).
Proof. reflexivity. Qed.

Lemma slices_step (n : nat) (st : State) :
  slices (step n st) =
  map (fun i => element_loop (a14 (nth i (theta_blade (step n st)) 0))
                             (theta_pitch (step n st))
                             (nth i (slices st) []))
      (seq 0 B).
Proof. reflexivity. Qed.

(** Inside the loop bounds, the stored slice is the one the loop body built. *)
Lemma slice_iteration (k i n : nat) :
  (1 <= n)%nat -> (i < B)%nat -> (k < length airfoils)%nat ->
  slice k i n = fst (iteration k i n).
Proof.
  intros Hn Hi Hk. destruct n as [|m]; [lia|].
  unfold iteration, slice, theta_blade_arr, theta_pitch_at.
  replace (S m - 1)%nat with m by lia.
  cbn [run]. rewrite slices_step.
  rewrite nth_map_seq by exact Hi.
  unfold element_loop. rewrite nth_map_seq by exact Hk.
  reflexivity.
Qed.

(** ** What one pass through the loop body stores *)

Ltac open_element :=
  unfold element;
  destruct (vadd _ _) as [[? ?] ?];
  destruct (matvec _ _) as [[? ?] ?];
  cbn [fst snd].

Section Element.

Variables (m14 : mat) (pitch : R) (k : nat) (prev : Slice).

Let S_n : Slice := fst (element m14 pitch k prev).
Let L_n : Locals := snd (element m14 pitch k prev).

Lemma element_V_rel_y :
  V_rel_y S_n = V0y S_n + Wy prev - omega * r k * cos theta_cone.
Proof. subst S_n. open_element. reflexivity. Qed.

Lemma element_V_rel_z : V_rel_z S_n = V0z S_n + Wz prev.
Proof. subst S_n. open_element. reflexivity. Qed.

Lemma element_phi : phi L_n = inflow_angle (V_rel_y S_n) (V_rel_z S_n).
Proof. subst S_n L_n. open_element. reflexivity. Qed.

Lemma element_aoa_deg :
  aoa_deg L_n = rad2deg (phi L_n) - (beta_deg k + rad2deg pitch).
Proof. subst L_n. open_element. reflexivity. Qed.

Lemma element_coeffs : coeffs L_n = force_coeffs_10MW (aoa_deg L_n) (tc k).
Proof. subst L_n. open_element. reflexivity. Qed.

Lemma element_V_rel_abs :
  V_rel_abs L_n = sqrt (V_rel_y S_n ^ 2 + V_rel_z S_n ^ 2).
Proof. subst S_n L_n. open_element. reflexivity. Qed.

Lemma element_fs :
  fs S_n =
  if use_stall
  then f_stat (coeffs L_n)
       + (fs prev - f_stat (coeffs L_n))
         * exp (- delta_t / (4 * c k / V_rel_abs L_n))
  else 0.
Proof. subst S_n L_n. open_element. reflexivity. Qed.

Lemma element_cl :
  cl_used S_n =
  if use_stall
  then f_stat (coeffs L_n) * cl_inv (coeffs L_n) + (1 - fs S_n) * cl_fs (coeffs L_n)
  else cl (coeffs L_n).
Proof. subst S_n L_n. open_element. reflexivity. Qed.

Lemma element_a : a L_n = - Wz prev / V_0.
Proof. subst L_n. open_element. reflexivity. Qed.

Lemma element_f_g :
  f_g L_n = if Rle_b (a L_n) 0.33 then 1 else 0.25 * (5 - 3 * a L_n).
Proof. subst L_n. open_element. reflexivity. Qed.

Lemma element_V_f_W :
  V_f_W L_n = sqrt (V0y S_n ^ 2 + (V0z S_n + f_g L_n * Wz prev) ^ 2).
Proof. subst S_n L_n. open_element. reflexivity. Qed.

Lemma element_l :
  l L_n = 0.5 * rho * V_rel_abs L_n ^ 2 * c k * cl_used S_n.
Proof. subst S_n L_n. open_element. reflexivity. Qed.


Lemma element_pn :
  pn S_n =
  if Nat.eqb k (length airfoils - 1) then 0
  else l L_n * cos (phi L_n) + d L_n * sin (phi L_n).
Proof. subst S_n L_n. open_element. reflexivity. Qed.

Lemma element_pt :
  pt S_n =
  if Nat.eqb k (length airfoils - 1) then 0
  else l L_n * sin (phi L_n) - d L_n * cos (phi L_n).
Proof. subst S_n L_n. open_element. reflexivity. Qed.

Lemma element_F : F L_n = prandtl (phi L_n) (r k).
Proof. subst L_n. open_element. reflexivity. Qed.

Lemma element_Wz_qs :
  Wz_qs S_n =
  (- INR B * l L_n * cos (phi L_n)) / (4 * PI * rho * r k * F L_n * V_f_W L_n).
Proof. subst S_n L_n. open_element. reflexivity. Qed.

Lemma element_Wy_qs :
  Wy_qs S_n =
  (- INR B * l L_n * sin (phi L_n)) / (4 * PI * rho * r k * F L_n * V_f_W L_n).
Proof. subst S_n L_n. open_element. reflexivity. Qed.

Lemma element_W_no_dwf :
  use_dwf = false -> Wz S_n = Wz_qs S_n /\ Wy S_n = Wy_qs S_n.
Proof. intros Hd. subst S_n. open_element. rewrite Hd. split; reflexivity. Qed.

End Element.

(** ** Properties of the stored arrays *)

Lemma locals_coeffs (k i n : nat) : coeffs (locals k i n) = lookup k i n.
Proof. unfold lookup, locals, iteration. apply element_coeffs. Qed.

(** C2. At every step [n >= 1] and for every blade, the normal load [pn_arr]
    and the tangential load [pt_arr] stored for the outermost blade element
    (index [len(airfoils) - 1]) are exactly zero. *)
Theorem tip_load_zero (i n : nat) :
  (1 <= n)%nat -> (i < B)%nat -> (0 < length airfoils)%nat ->
  pn_arr (length airfoils - 1) i n = 0 /\
  pt_arr (length airfoils - 1) i n = 0.
Proof.
  intros Hn Hi Hlen. unfold pn_arr, pt_arr.
  rewrite slice_iteration by (try assumption; lia).
  unfold iteration. rewrite element_pn, element_pt.
  rewrite Nat.eqb_refl. split; reflexivity.
Qed.

(** C6. With the dynamic-wake filter switched off, at every step [n >= 1],
    blade and element, both components of the induced velocity stored at
    step [n] are the quasi-steady components stored at step [n]. *)
Theorem no_dwf_induced_velocity_is_quasi_steady (k i n : nat) :
  use_dwf = false ->
  (1 <= n)%nat -> (i < B)%nat -> (k < length airfoils)%nat ->
  Wz_arr k i n = Wz_qs_arr k i n /\ Wy_arr k i n = Wy_qs_arr k i n.
Proof.
  intros Hd Hn Hi Hk. unfold Wz_arr, Wz_qs_arr, Wy_arr, Wy_qs_arr.
  rewrite slice_iteration by assumption.
  unfold iteration. apply element_W_no_dwf. exact Hd.
Qed.

(** C7. With dynamic stall switched off, at every step [n >= 1], blade and
    element, the lift coefficient stored in [cl_arr] and used for the lift
    force [l] is the value [cl] returned by the polar lookup at the
    element's angle of attack and thickness ratio. *)
Theorem no_stall_lift_is_static_lookup (k i n : nat) :
  use_stall = false ->
  (1 <= n)%nat -> (i < B)%nat -> (k < length airfoils)%nat ->
  cl_arr k i n = cl (force_coeffs_10MW (aoa_deg (locals k i n)) (tc k)) /\
  l (locals k i n) =
    0.5 * rho * V_rel_abs (locals k i n) ^ 2 * c k
    * cl (force_coeffs_10MW (aoa_deg (locals k i n)) (tc k)).
Proof.
  intros Hs Hn Hi Hk.
  assert (Hcl : cl_arr k i n = cl (force_coeffs_10MW (aoa_deg (locals k i n)) (tc k))).
  { unfold cl_arr. rewrite slice_iteration by assumption.
    unfold locals, iteration. rewrite element_cl, element_coeffs, Hs.
    reflexivity. }
  split; [exact Hcl|].
  rewrite <- Hcl. unfold cl_arr. rewrite slice_iteration by assumption.
  unfold locals, iteration. apply element_l.
Qed.

(** C5. With dynamic stall switched on, at every step [n >= 1], blade and
    element: the separation state [fs_arr] at [n] is
    [f_stat + (fs_arr[n-1] - f_stat) * exp(-delta_t / tau)] with
    [tau = 4 * c / |V_rel|], where [|V_rel|] is the magnitude of the relative
    velocity at [n]; and the lift coefficient stored and used for the lift
    force is [f_stat * cl_inv + (1 - fs_arr[n]) * cl_fs]. *)
Theorem stall_separation_and_lift (k i n : nat) :
  use_stall = true ->
  (1 <= n)%nat -> (i < B)%nat -> (k < length airfoils)%nat ->
  let co := force_coeffs_10MW (aoa_deg (locals k i n)) (tc k) in
  let V_abs := sqrt (V_rel_y_arr k i n ^ 2 + V_rel_z_arr k i n ^ 2) in
  let tau := 4 * c k / V_abs in
  fs_arr k i n =
    f_stat co + (fs_arr k i (n - 1) - f_stat co) * exp (- delta_t / tau) /\
  cl_arr k i n = f_stat co * cl_inv co + (1 - fs_arr k i n) * cl_fs co /\
  l (locals k i n) = 0.5 * rho * V_abs ^ 2 * c k * cl_arr k i n.
Proof.
  intros Hs Hn Hi Hk co V_abs tau.
  assert (HV : V_rel_abs (locals k i n) = V_abs).
  { subst V_abs. unfold V_rel_y_arr, V_rel_z_arr.
    rewrite slice_iteration by assumption.
    unfold locals, iteration. apply element_V_rel_abs. }
  assert (Hco : coeffs (locals k i n) = co) by apply locals_coeffs.
  unfold fs_arr, cl_arr.
  rewrite (slice_iteration k i n) by assumption.
  unfold locals, iteration in *.
  rewrite element_fs, element_cl, element_l, Hs, Hco, HV.
  rewrite element_cl, element_fs, Hs, Hco, HV.
  repeat split; reflexivity.
Qed.

(** ** Azimuth *)

(** At time index 0 the blades are exactly [2*PI/3] apart. *)
Lemma initial_spacing :
  theta_blade_arr 1 0 - theta_blade_arr 0 0 = 2 * PI / 3 /\
  theta_blade_arr 2 0 - theta_blade_arr 0 0 = 4 * PI / 3.
Proof. unfold theta_blade_arr. cbn. split; lra. Qed.

Lemma theta_blade_arr_S (n : nat) :
  theta_blade_arr 0 (S n) = theta_blade_arr 0 n + omega * delta_t /\
  theta_blade_arr 1 (S n) = theta_blade_arr 0 (S n) + omega * delta_t + 0.666 * PI /\
  theta_blade_arr 2 (S n) = theta_blade_arr 0 (S n) + omega * delta_t + 1.333 * PI.
Proof.
  unfold theta_blade_arr. cbn [run]. rewrite theta_blade_step.
  cbn [nth]. repeat split; reflexivity.
Qed.

(** C1 (fails on the code). At every step [n >= 1] blade 0 is advanced by
    [omega * delta_t] from step [n-1], but blade 1 and blade 2 are stored
    [omega * delta_t + 0.666 * PI] and [omega * delta_t + 1.333 * PI] ahead
    of blade 0: more than 0.1 rad away from the offsets [2*PI/3] and
    [4*PI/3] the claim states. *)
Theorem blade_spacing_misses_phase_offset (n : nat) :
  (1 <= n)%nat ->
  theta_blade_arr 0 n = theta_blade_arr 0 (n - 1) + omega * delta_t /\
  theta_blade_arr 1 n - theta_blade_arr 0 n = omega * delta_t + 0.666 * PI /\
  theta_blade_arr 2 n - theta_blade_arr 0 n = omega * delta_t + 1.333 * PI /\
  0.1 < (theta_blade_arr 1 n - theta_blade_arr 0 n) - 2 * PI / 3 /\
  0.1 < (theta_blade_arr 2 n - theta_blade_arr 0 n) - 4 * PI / 3.
Proof.
  intros Hn. destruct n as [|m]; [lia|].
  replace (S m - 1)%nat with m by lia.
  destruct (theta_blade_arr_S m) as (H0 & H1 & H2).
  pose proof PI_gt_3 as Hpi.
  rewrite H1, H2. unfold omega, delta_t.
  repeat split; lra.
Qed.

(** ** Pitch schedule *)

Lemma time_arr_eq (n : nat) : time_arr n = INR n * delta_t.
Proof.
  unfold time_arr. destruct n as [|m]; [cbn; lra | reflexivity].
Qed.

(** The schedule as a function of the elapsed time alone. *)
Lemma theta_pitch_at_time (n : nat) :
  theta_pitch_at n =
  if use_pitch
  then if Rle_b 100 (INR n * delta_t) && Rle_b (INR n * delta_t) 150
       then deg2rad 2 else 0
  else 0.
Proof.
  induction n as [|m IH].
  - unfold theta_pitch_at. cbn [run init theta_pitch INR].
    destruct use_pitch; [|reflexivity].
    replace (Rle_b 100 (0 * delta_t)) with false; [reflexivity|].
    symmetry. apply Rle_b_false. lra.
  - unfold theta_pitch_at in *. cbn [run]. rewrite theta_pitch_step, IH.
    unfold pitch_schedule. destruct use_pitch; [|reflexivity].
    destruct (Rle_b 100 (INR (S m) * delta_t) && Rle_b (INR (S m) * delta_t) 150)
      eqn:Hwin; [reflexivity|].
    destruct (Rlt_b 150 (INR (S m) * delta_t)) eqn:Hafter; [reflexivity|].
    apply Rlt_b_false in Hafter.
    apply andb_false_iff in Hwin.
    destruct Hwin as [Hlo | Hhi];
      [apply Rle_b_false in Hlo | apply Rle_b_false in Hhi; lra].
    replace (Rle_b 100 (INR m * delta_t)) with false; [reflexivity|].
    symmetry. apply Rle_b_false.
    rewrite S_INR in Hlo. unfold delta_t in *. lra.
Qed.

(** C8. With pitch control on, the pitch in force during step [n] depends
    only on the elapsed time [n * delta_t]: it is 2 degrees when
    [100 <= n * delta_t <= 150] and 0 when the time is outside that window,
    before as well as after; with pitch control off it is 0 at every step. *)
Theorem pitch_is_function_of_time (n : nat) :
  (1 <= n)%nat ->
  let t := INR n * delta_t in
  time_arr n = t /\
  (use_pitch = true -> 100 <= t <= 150 -> theta_pitch_at n = deg2rad 2) /\
  (use_pitch = true -> t < 100 \/ 150 < t -> theta_pitch_at n = 0) /\
  (use_pitch = false -> theta_pitch_at n = 0).
Proof.
  intros _ t. subst t. rewrite theta_pitch_at_time.
  split; [apply time_arr_eq|].
  repeat split; intros Hp; rewrite Hp; try reflexivity.
  - intros [Hlo Hhi].
    apply Rle_b_true in Hlo. apply Rle_b_true in Hhi.
    rewrite Hlo, Hhi. reflexivity.
  - intros [Hlo | Hhi].
    + apply Rle_b_false in Hlo. rewrite Hlo. reflexivity.
    + apply Rle_b_false in Hhi. rewrite Hhi, andb_false_r. reflexivity.
Qed.

(** ** Thrust *)

Lemma trapz_cons2 (y0 y1 : R) (ys : list R) (x0 x1 : R) (xs : list R) :
  trapz (y0 :: y1 :: ys) (x0 :: x1 :: xs)
  = (x1 - x0) * (y1 + y0) / 2 + trapz (y1 :: ys) (x1 :: xs).
Proof. reflexivity. Qed.

Lemma trapz_vplus (ys zs xs : list R) :
  length ys = length zs ->
  trapz (vplus ys zs) xs = trapz ys xs + trapz zs xs.
Proof.
  revert zs xs. induction ys as [|y0 ys IH]; intros zs xs Hlen.
  - destruct zs; [cbn; lra | discriminate].
  - destruct zs as [|z0 zs]; [discriminate|].
    injection Hlen as Hlen.
    destruct ys as [|y1 ys]; destruct zs as [|z1 zs]; try discriminate.
    + destruct xs as [|x0 [|x1 xs]]; cbn; lra.
    + destruct xs as [|x0 [|x1 xs]]; try (cbn; lra).
      cbn [vplus]. rewrite !trapz_cons2.
      change ((y1 + z1) :: vplus ys zs) with (vplus (y1 :: ys) (z1 :: zs)).
      rewrite (IH (z1 :: zs) (x1 :: xs) Hlen). lra.
Qed.

Lemma trapz_zeros (len : nat) (xs : list R) : trapz (repeat 0 len) xs = 0.
Proof.
  revert xs. induction len as [|len IH]; intros xs; [reflexivity|].
  destruct len as [|len]; [destruct xs as [|x0 [|x1 xs]]; reflexivity|].
  destruct xs as [|x0 [|x1 xs]]; try reflexivity.
  cbn [repeat] in *. rewrite trapz_cons2, IH. lra.
Qed.

Lemma length_vplus (ys zs : list R) :
  length ys = length zs -> length (vplus ys zs) = length ys.
Proof.
  revert zs. induction ys as [|y ys IH]; intros [|z zs] Hlen;
    try discriminate; [reflexivity|].
  cbn. f_equal. apply IH. injection Hlen as Hlen. exact Hlen.
Qed.

(** Linearity of the trapezoidal rule over three columns of one length. *)
Lemma trapz_sum_axis1 (len : nat) (c0 c1 c2 xs : list R) :
  length c0 = len -> length c1 = len -> length c2 = len ->
  trapz (sum_axis1 len [c0; c1; c2]) xs
  = trapz c0 xs + trapz c1 xs + trapz c2 xs.
Proof.
  intros H0 H1 H2. unfold sum_axis1. cbn [fold_left].
  assert (L0 : length (vplus (repeat 0 len) c0) = len).
  { rewrite length_vplus; rewrite repeat_length; congruence. }
  assert (L1 : length (vplus (vplus (repeat 0 len) c0) c1) = len).
  { rewrite length_vplus; congruence. }
  rewrite trapz_vplus by congruence.
  rewrite trapz_vplus by congruence.
  rewrite trapz_vplus by (rewrite repeat_length; congruence).
  rewrite trapz_zeros. lra.
Qed.

Lemma T_step (n : nat) (st : State) :
  T (step n st) =
  trapz (sum_axis1 (length airfoils)
                   (map (column pn (slices (step n st))) (seq 0 B)))
        (map af_r airfoils).
Proof. reflexivity. Qed.

Lemma T_all_step (n : nat) (st : State) :
  T_all (step n st) =
  map (fun i => trapz (column pn (slices (step n st)) i) (map af_r airfoils))
      (seq 0 B).
Proof. reflexivity. Qed.

Lemma length_slices_run (i n : nat) :
  (i < B)%nat -> length (nth i (slices (run n)) []) = length airfoils.
Proof.
  intros Hi. destruct n as [|m].
  - destruct i as [|[|[|i]]]; try (unfold B in Hi; lia);
      cbn; apply repeat_length.
  - cbn [run]. rewrite slices_step, nth_map_seq by exact Hi.
    unfold element_loop. rewrite length_map, length_seq. reflexivity.
Qed.

(** Column [arr[:, i, n]] of the load array, element by element. *)
Lemma column_pn (i n : nat) :
  (i < B)%nat ->
  column pn (slices (run n)) i
  = map (fun k => pn_arr k i n) (seq 0 (length airfoils)).
Proof.
  intros Hi. unfold column, pn_arr, slice.
  rewrite <- (length_slices_run i n Hi).
  generalize (nth i (slices (run n)) []). intros sl.
  apply nth_ext with (d := 0) (d' := 0).
  - rewrite !length_map, length_seq. reflexivity.
  - intros k Hk. rewrite length_map in Hk.
    rewrite nth_map_seq by exact Hk.
    rewrite (nth_indep _ 0 (pn zero_slice)) by (rewrite length_map; exact Hk).
    apply map_nth.
Qed.

(** C9. At every step [n >= 1] the per-blade thrusts are the trapezoidal
    integrals over the radius of each blade's normal load, the total thrust
    is the trapezoidal integral of the normal load summed over the blades,
    and the total thrust equals the sum of the three per-blade thrusts. *)
Theorem thrust_is_sum_of_blade_thrusts (n : nat) :
  (1 <= n)%nat ->
  let rs := map af_r airfoils in
  let pn_col := fun i => map (fun k => pn_arr k i n) (seq 0 (length airfoils)) in
  (forall i, (i < B)%nat -> T_all_arr i n = trapz (pn_col i) rs) /\
  T_arr n = trapz (sum_axis1 (length airfoils) (map pn_col (seq 0 B))) rs /\
  T_arr n = T_all_arr 0 n + T_all_arr 1 n + T_all_arr 2 n.
Proof.
  intros Hn rs pn_col. destruct n as [|m]; [lia|].
  assert (Hall : forall i, (i < B)%nat -> T_all_arr i (S m) = trapz (pn_col i) rs).
  { intros i Hi. unfold T_all_arr. cbn [run]. rewrite T_all_step.
    rewrite nth_map_seq by exact Hi.
    change (step (S m) (run m)) with (run (S m)).
    rewrite column_pn by exact Hi. reflexivity. }
  assert (Htot : T_arr (S m)
                 = trapz (sum_axis1 (length airfoils) (map pn_col (seq 0 B))) rs).
  { unfold T_arr. cbn [run]. rewrite T_step.
    change (step (S m) (run m)) with (run (S m)).
    cbn [B seq map]. rewrite !column_pn by (unfold B; lia). reflexivity. }
  split; [exact Hall|]. split; [exact Htot|].
  rewrite Htot, !Hall by (unfold B; lia).
  cbn [B seq map].
  apply trapz_sum_axis1; subst pn_col; cbn beta;
    rewrite length_map, length_seq; reflexivity.
Qed.

(** ** Prandtl factor *)

Lemma acos_unit_interval (x : R) : 0 < x < 1 -> 0 < acos x < PI / 2.
Proof.
  intros [H0 H1]. rewrite acos_atan by exact H0.
  assert (Hy : 0 < sqrt (1 - x²) / x).
  { apply Rdiv_lt_0_compat; [|exact H0].
    apply sqrt_lt_R0. unfold Rsqr. nra. }
  pose proof (atan_bound (sqrt (1 - x²) / x)) as [_ Hub].
  pose proof (atan_increasing 0 _ Hy) as Hlb. rewrite atan_0 in Hlb.
  split; assumption.
Qed.

Lemma prandtl_near_zero_or_tip (ph rk : R) :
  sin (Rabs ph) <= 0.01 \/ R_rotor - rk <= 0.005 -> prandtl ph rk = 1.
Proof.
  intros Hc. unfold prandtl.
  destruct Hc as [Hc | Hc]; apply Rle_b_true in Hc; rewrite Hc;
    [|rewrite orb_true_r]; reflexivity.
Qed.

Lemma prandtl_elsewhere (ph rk : R) :
  ~ (sin (Rabs ph) <= 0.01 \/ R_rotor - rk <= 0.005) ->
  prandtl ph rk =
  2 / PI * acos (exp (- (INR B / 2) * ((R_rotor - rk) / (rk * sin (Rabs ph))))).
Proof.
  intros Hc. unfold prandtl.
  replace (Rle_b (sin (Rabs ph)) 0.01) with false
    by (symmetry; apply Rle_b_false; lra).
  replace (Rle_b (R_rotor - rk) 0.005) with false
    by (symmetry; apply Rle_b_false; lra).
  reflexivity.
Qed.

Lemma prandtl_range (ph rk : R) : 0 < rk -> 0 < prandtl ph rk <= 1.
Proof.
  intros Hr.
  destruct (Rle_dec (sin (Rabs ph)) 0.01) as [Hs | Hs];
    [rewrite prandtl_near_zero_or_tip by (left; exact Hs); lra|].
  destruct (Rle_dec (R_rotor - rk) 0.005) as [Ht | Ht];
    [rewrite prandtl_near_zero_or_tip by (right; exact Ht); lra|].
  rewrite prandtl_elsewhere by lra.
  set (x := (R_rotor - rk) / (rk * sin (Rabs ph))).
  assert (Hx : 0 < x).
  { apply Rdiv_lt_0_compat; [lra|]. apply Rmult_lt_0_compat; lra. }
  assert (He : 0 < exp (- (INR B / 2) * x) < 1).
  { split; [apply exp_pos|].
    rewrite <- exp_0. apply exp_increasing. cbn [B INR]. nra. }
  pose proof (acos_unit_interval _ He) as [Hlo Hhi].
  pose proof PI_RGT_0 as Hpi.
  set (y := acos (exp (- (INR B / 2) * x))) in *.
  assert (Heq : 2 / PI * y * PI = 2 * y) by (field; lra).
  split.
  - apply Rmult_lt_0_compat; [|exact Hlo].
    apply Rdiv_lt_0_compat; lra.
  - apply Rmult_le_reg_r with PI; [exact Hpi|]. rewrite Heq. lra.
Qed.

(** C3. At every step [n >= 1], blade and element with a positive radius,
    the Prandtl factor [F] of the loop body lies in (0, 1]; it is exactly 1
    when [sin |phi| <= 0.01] or [R - r <= 0.005], and otherwise it is
    [(2/PI) * arccos (exp (-(B/2) * (R - r) / (r * sin |phi|)))]. *)
Theorem prandtl_factor_range (k i n : nat) :
  (1 <= n)%nat -> (i < B)%nat -> (k < length airfoils)%nat ->
  0 < r k ->
  let ph := phi (locals k i n) in
  let Fv := F (locals k i n) in
  0 < Fv <= 1 /\
  (sin (Rabs ph) <= 0.01 \/ R_rotor - r k <= 0.005 -> Fv = 1) /\
  (~ (sin (Rabs ph) <= 0.01 \/ R_rotor - r k <= 0.005) ->
   Fv = 2 / PI
        * acos (exp (- (INR B / 2) * ((R_rotor - r k) / (r k * sin (Rabs ph)))))).
Proof.
  intros _ _ _ Hr ph Fv.
  assert (HF : Fv = prandtl ph (r k)).
  { subst Fv ph. unfold locals, iteration. apply element_F. }
  rewrite HF. split; [apply prandtl_range; exact Hr|].
  split; [apply prandtl_near_zero_or_tip | apply prandtl_elsewhere].
Qed.

(** ** Inflow angle and angle of attack *)

Lemma atan2_right_half_plane (y x : R) : 0 < x -> atan2 y x = atan (y / x).
Proof.
  intros Hx. unfold atan2.
  apply Rlt_b_true in Hx. rewrite Hx. reflexivity.
Qed.

(** With a positive in-plane relative velocity the one-argument arctangent
    and [atan2] are [PI] apart. *)
Lemma inflow_angle_left_half_plane (vy vz : R) :
  0 < vy -> inflow_angle vy vz <> atan2 vz (- vy).
Proof.
  intros Hvy. unfold inflow_angle, atan2.
  replace (Rlt_b 0 (- vy)) with false by (symmetry; apply Rlt_b_false; lra).
  replace (Rlt_b (- vy) 0) with true by (symmetry; apply Rlt_b_true; lra).
  pose proof PI_RGT_0.
  destruct (Rle_b 0 vz); lra.
Qed.

(** C4 (as amended). At every step [n >= 1], blade and element, the inflow
    angle is the one-argument arctangent of the quotient
    [V_rel_z / (-V_rel_y)]; it agrees with [atan2 (V_rel_z, -V_rel_y)] when
    the in-plane relative velocity [V_rel_y] is negative; and the angle of
    attack, in degrees, is the inflow angle minus (twist + pitch). *)
Theorem inflow_angle_is_arctan_of_quotient (k i n : nat) :
  (1 <= n)%nat -> (i < B)%nat -> (k < length airfoils)%nat ->
  let ph := phi (locals k i n) in
  ph = atan (V_rel_z_arr k i n / (- V_rel_y_arr k i n)) /\
  (V_rel_y_arr k i n < 0 ->
   ph = atan2 (V_rel_z_arr k i n) (- V_rel_y_arr k i n)) /\
  aoa_deg (locals k i n)
  = rad2deg ph - (beta_deg k + rad2deg (theta_pitch_at n)).
Proof.
  intros Hn Hi Hk ph.
  assert (Hph : ph = atan (V_rel_z_arr k i n / (- V_rel_y_arr k i n))).
  { subst ph. unfold V_rel_z_arr, V_rel_y_arr.
    rewrite slice_iteration by assumption.
    unfold locals, iteration. apply element_phi. }
  split; [exact Hph|]. split.
  - intros Hneg. rewrite atan2_right_half_plane by lra. exact Hph.
  - subst ph. unfold locals, iteration. apply element_aoa_deg.
Qed.

(** ** Quasi-steady induced velocity at the tip *)

(** With zero yaw, tilt and cone the wind vector [(0, 0, V)] of the fixed
    frame keeps its components in the blade frame. *)
Lemma a14_wind (theta V : R) : matvec (a14 theta) (0, 0, V) = (0, 0, V).
Proof.
  unfold a14, a12, a34, a23, a3, a2, a1, theta_yaw, theta_tilt, theta_cone,
    deg2rad.
  rewrite Rmult_0_l, cos_0, sin_0.
  cbv [matmul transpose matvec dot].
  f_equal; [f_equal|]; ring.
Qed.

Lemma element_V0 (theta pitch : R) (k : nat) (prev : Slice) :
  V0y (fst (element (a14 theta) pitch k prev)) = 0 /\
  0 < V0z (fst (element (a14 theta) pitch k prev)).
Proof.
  unfold element. destruct (vadd _ _) as [[x y] z].
  rewrite a14_wind. cbn [fst V0y V0z].
  split; [reflexivity|].
  apply Rmult_lt_0_compat; [unfold V_0; lra | apply exp_pos].
Qed.

Lemma element_V0z_eq (theta pitch : R) (k : nat) (prev : Slice) :
  V0z (fst (element (a14 theta) pitch k prev))
  = V_0 * Rpower (x1 (fst (element (a14 theta) pitch k prev)) / H) wind_shear.
Proof.
  unfold element. destruct (vadd _ _) as [[x y] z].
  rewrite a14_wind. reflexivity.
Qed.

Lemma slice_0 (k i : nat) : slice k i 0 = zero_slice.
Proof.
  unfold slice. cbn [run init slices B repeat].
  destruct i as [|[|[|i]]]; cbn [nth]; try apply nth_repeat.
  destruct i, k; reflexivity.
Qed.

(** The cosine of the inflow angle is positive: it is an arctangent. *)
Lemma cos_inflow_angle_pos (vy vz : R) : 0 < cos (inflow_angle vy vz).
Proof.
  unfold inflow_angle.
  pose proof (atan_bound (vz / - vy)) as [Hlo Hhi].
  apply cos_gt_0; lra.
Qed.

Lemma element_Wz_qs_nonzero (m14 : mat) (pitch : R) (k : nat) (prev : Slice) :
  0 < r k ->
  l (snd (element m14 pitch k prev)) <> 0 ->
  V_f_W (snd (element m14 pitch k prev)) <> 0 ->
  Wz_qs (fst (element m14 pitch k prev)) <> 0.
Proof.
  intros Hr Hl HV. rewrite element_Wz_qs.
  pose proof (cos_inflow_angle_pos
                (V_rel_y (fst (element m14 pitch k prev)))
                (V_rel_z (fst (element m14 pitch k prev)))) as Hcos.
  rewrite <- element_phi in Hcos.
  pose proof (prandtl_range (phi (snd (element m14 pitch k prev))) (r k) Hr)
    as [HF _].
  rewrite <- element_F in HF.
  pose proof PI_RGT_0 as Hpi.
  assert (HB : - INR B <> 0) by (cbn [B INR]; lra).
  assert (Hc : cos (phi (snd (element m14 pitch k prev))) <> 0) by lra.
  assert (HF0 : F (snd (element m14 pitch k prev)) <> 0) by lra.
  assert (Hden : 4 * PI * rho * r k <> 0).
  { unfold rho. apply Rgt_not_eq. apply Rmult_gt_0_compat; lra. }
  unfold Rdiv. apply Rmult_integral_contrapositive_currified.
  - do 2 (apply Rmult_integral_contrapositive_currified; [|assumption]).
    assumption.
  - apply Rinv_neq_0_compat.
    do 2 (apply Rmult_integral_contrapositive_currified; [|assumption]).
    assumption.
Qed.

(** At the first step the wake is still: the convective speed and the
    relative speed are positive. *)
Lemma first_step_speeds (k i : nat) :
  0 < V_f_W (locals k i 1) /\ 0 < V_rel_abs (locals k i 1).
Proof.
  unfold locals, iteration. cbn [Nat.sub]. rewrite slice_0.
  rewrite element_V_f_W, element_V_rel_abs, element_V_rel_z.
  destruct (element_V0 (theta_blade_arr i 1) (theta_pitch_at 1) k zero_slice)
    as [Hy Hz].
  cbn [Wz zero_slice].
  set (vz := V0z (fst (element (a14 (theta_blade_arr i 1)) (theta_pitch_at 1)
                               k zero_slice))) in *.
  split; apply sqrt_lt_R0.
  - rewrite Hy. nra.
  - assert (0 <= V_rel_y (fst (element (a14 (theta_blade_arr i 1))
                                       (theta_pitch_at 1) k zero_slice)) ^ 2)
      by apply pow2_ge_0.
    nra.
Qed.

Lemma lift_of_stored_cl (k i n : nat) :
  (1 <= n)%nat -> (i < B)%nat -> (k < length airfoils)%nat ->
  l (locals k i n)
  = 0.5 * rho * V_rel_abs (locals k i n) ^ 2 * c k * cl_arr k i n.
Proof.
  intros Hn Hi Hk. unfold cl_arr. rewrite slice_iteration by assumption.
  unfold locals, iteration. apply element_l.
Qed.

(** C10. At every step [n >= 1] and for every blade, the quasi-steady
    induced velocity of the outermost element is computed from the lift
    force [l] of that element, [-B * l * cos(phi) / (4*PI*rho*r*F*V_f_W)]
    (and with [sin(phi)] for the other component), where [l] is the lift of
    the stored lift coefficient and is not zeroed; the stored loads of that
    element are zero all the same, and the induced velocity is nonzero
    whenever the radius is positive and [l] and [V_f_W] are nonzero. *)
Theorem tip_induced_velocity_uses_unzeroed_lift (i n : nat) :
  (1 <= n)%nat -> (i < B)%nat -> (0 < length airfoils)%nat ->
  let k := (length airfoils - 1)%nat in
  let L := locals k i n in
  l L = 0.5 * rho * V_rel_abs L ^ 2 * c k * cl_arr k i n /\
  Wz_qs_arr k i n
  = (- INR B * l L * cos (phi L)) / (4 * PI * rho * r k * F L * V_f_W L) /\
  Wy_qs_arr k i n
  = (- INR B * l L * sin (phi L)) / (4 * PI * rho * r k * F L * V_f_W L) /\
  pn_arr k i n = 0 /\
  pt_arr k i n = 0 /\
  (0 < r k -> l L <> 0 -> V_f_W L <> 0 -> Wz_qs_arr k i n <> 0).
Proof.
  intros Hn Hi Hlen k L.
  assert (Hk : (k < length airfoils)%nat) by (subst k; lia).
  split; [apply lift_of_stored_cl; assumption|].
  unfold Wz_qs_arr, Wy_qs_arr, pn_arr, pt_arr.
  rewrite (slice_iteration k i n) by assumption.
  subst L. unfold locals, iteration.
  split; [apply element_Wz_qs|]. split; [apply element_Wy_qs|].
  rewrite element_pn, element_pt. subst k. rewrite Nat.eqb_refl.
  split; [reflexivity|]. split; [reflexivity|].
  apply element_Wz_qs_nonzero.
Qed.

(** ** Further properties of the loop: azimuth, geometry and inflow *)

(** X1. Blade 0 turns at constant speed: its azimuth at step [n] is
    [n * omega * delta_t]; from step 1 on blade 1 and blade 2 are stored
    [omega * delta_t + 0.666 * PI] and [omega * delta_t + 1.333 * PI] ahead
    of that. *)
Theorem azimuth_closed_form (n : nat) :
  theta_blade_arr 0 n = INR n * (omega * delta_t) /\
  ((1 <= n)%nat ->
   theta_blade_arr 1 n = INR n * (omega * delta_t) + omega * delta_t + 0.666 * PI /\
   theta_blade_arr 2 n = INR n * (omega * delta_t) + omega * delta_t + 1.333 * PI).
Proof.
  assert (H0 : forall m, theta_blade_arr 0 m = INR m * (omega * delta_t)).
  { induction m as [|m IH].
    - unfold theta_blade_arr. cbn. lra.
    - destruct (theta_blade_arr_S m) as (Hs & _ & _).
      rewrite Hs, IH, S_INR. lra. }
  split; [apply H0|].
  intros Hn. destruct n as [|m]; [lia|].
  destruct (theta_blade_arr_S m) as (_ & H1 & H2).
  rewrite H1, H2, H0. split; reflexivity.
Qed.

(** With zero yaw, tilt and cone the element at radius [rk] of a blade at
    azimuth [theta] sits at [(H + rk cos theta, rk sin theta, -L_s)]. *)
Lemma blade_position (theta rk : R) :
  vadd (vadd rt1 rs1) (matvec (transpose (a14 theta)) (rk, 0, 0))
  = (H + rk * cos theta, rk * sin theta, - L_s).
Proof.
  unfold rt1, rs1, a21, a14, a12, a34, a23, a3, a2, a1, theta_yaw, theta_tilt,
    theta_cone, deg2rad.
  rewrite Rmult_0_l, cos_0, sin_0.
  cbv [matmul transpose matvec dot vadd].
  f_equal; [f_equal|]; ring.
Qed.

Lemma element_geometry (theta pitch : R) (k : nat) (prev : Slice) :
  let S_n := fst (element (a14 theta) pitch k prev) in
  x1 S_n = H + r k * cos theta /\
  y1 S_n = r k * sin theta /\
  z1 S_n = - L_s /\
  V0x S_n = 0 /\
  V0y S_n = 0 /\
  V0z S_n = V_0 * Rpower (x1 S_n / H) wind_shear.
Proof.
  cbv zeta. unfold element. rewrite blade_position, a14_wind.
  cbn [fst x1 y1 z1 V0x V0y V0z]. repeat split; reflexivity.
Qed.

(** X2. At every step [n >= 1] the element [k] of blade [i] is stored at
    [(H + r cos theta, r sin theta, -L_s)] for the blade's azimuth [theta]:
    in the rotor plane it lies on the circle of radius [r[k]] around the
    hub, one shaft length behind the tower axis. *)
Theorem element_on_rotor_circle (k i n : nat) :
  (1 <= n)%nat -> (i < B)%nat -> (k < length airfoils)%nat ->
  x1_arr k i n = H + r k * cos (theta_blade_arr i n) /\
  y1_arr k i n = r k * sin (theta_blade_arr i n) /\
  z1_arr k i n = - L_s /\
  (x1_arr k i n - H) ^ 2 + y1_arr k i n ^ 2 = r k ^ 2.
Proof.
  intros Hn Hi Hk. unfold x1_arr, y1_arr, z1_arr.
  rewrite slice_iteration by assumption. unfold iteration.
  destruct (element_geometry (theta_blade_arr i n) (theta_pitch_at n) k
              (slice k i (n - 1))) as (Hx & Hy & Hz & _).
  rewrite Hx, Hy, Hz. repeat split; try reflexivity.
  pose proof (sin2_cos2 (theta_blade_arr i n)) as Hsc. unfold Rsqr in Hsc.
  replace ((H + r k * cos (theta_blade_arr i n) - H) ^ 2
           + (r k * sin (theta_blade_arr i n)) ^ 2)
    with (r k ^ 2 * (sin (theta_blade_arr i n) * sin (theta_blade_arr i n)
                     + cos (theta_blade_arr i n) * cos (theta_blade_arr i n)))
    by ring.
  rewrite Hsc. ring.
Qed.

Lemma height_bounds (k i n : nat) :
  (1 <= n)%nat -> (i < B)%nat -> (k < length airfoils)%nat ->
  0 <= r k ->
  H - r k <= x1_arr k i n <= H + r k.
Proof.
  intros Hn Hi Hk Hr. unfold x1_arr.
  rewrite slice_iteration by assumption. unfold iteration.
  destruct (element_geometry (theta_blade_arr i n) (theta_pitch_at n) k
              (slice k i (n - 1))) as (Hx & _).
  rewrite Hx.
  pose proof (COS_bound (theta_blade_arr i n)) as [Hlo Hhi].
  split; nra.
Qed.

(** X3. An element whose radius is below the hub height never reaches the
    ground: at every step [n >= 1] its height lies between [H - r] and
    [H + r], and is positive. *)
Theorem element_height_positive (k i n : nat) :
  (1 <= n)%nat -> (i < B)%nat -> (k < length airfoils)%nat ->
  0 <= r k < H ->
  H - r k <= x1_arr k i n <= H + r k /\ 0 < x1_arr k i n.
Proof.
  intros Hn Hi Hk [Hr0 HrH].
  pose proof (height_bounds k i n Hn Hi Hk Hr0) as Hb.
  split; [exact Hb | lra].
Qed.

Lemma free_stream (k i n : nat) :
  (1 <= n)%nat -> (i < B)%nat -> (k < length airfoils)%nat ->
  V0x_arr k i n = 0 /\
  V0y_arr k i n = 0 /\
  V0z_arr k i n = V_0 * Rpower (x1_arr k i n / H) wind_shear.
Proof.
  intros Hn Hi Hk. unfold V0x_arr, V0y_arr, V0z_arr, x1_arr.
  rewrite slice_iteration by assumption. unfold iteration.
  destruct (element_geometry (theta_blade_arr i n) (theta_pitch_at n) k
              (slice k i (n - 1))) as (_ & _ & _ & Hx & Hy & Hz).
  repeat split; assumption.
Qed.

(** X4. At every step [n >= 1] the free-stream wind stored for an element
    has no component along the blade or in the rotor plane; with wind shear
    switched off its out-of-plane component is [V_0] at every element,
    whatever its height. *)
Theorem free_stream_in_blade_frame (k i n : nat) :
  (1 <= n)%nat -> (i < B)%nat -> (k < length airfoils)%nat ->
  V0x_arr k i n = 0 /\
  V0y_arr k i n = 0 /\
  (use_wind_shear = false -> V0z_arr k i n = V_0).
Proof.
  intros Hn Hi Hk.
  destruct (free_stream k i n Hn Hi Hk) as (Hx & Hy & Hz).
  repeat split; try assumption.
  intros Hws. rewrite Hz. unfold wind_shear, Rpower. rewrite Hws.
  rewrite Rmult_0_l, exp_0. lra.
Qed.

Lemma Rpower_one (e : R) : Rpower 1 e = 1.
Proof. unfold Rpower. rewrite ln_1, Rmult_0_r. apply exp_0. Qed.

(** X5. With wind shear switched on, at every step [n >= 1] an element
    whose radius is below the hub height sees at least [V_0] when it is at
    or above the hub, at most [V_0] when it is at or below the hub, and a
    positive wind in both cases. *)
Theorem wind_shear_follows_height (k i n : nat) :
  use_wind_shear = true ->
  (1 <= n)%nat -> (i < B)%nat -> (k < length airfoils)%nat ->
  0 <= r k < H ->
  0 < V0z_arr k i n /\
  (H <= x1_arr k i n -> V_0 <= V0z_arr k i n) /\
  (x1_arr k i n <= H -> V0z_arr k i n <= V_0).
Proof.
  intros Hws Hn Hi Hk [Hr0 HrH].
  destruct (free_stream k i n Hn Hi Hk) as (_ & _ & Hz).
  pose proof (height_bounds k i n Hn Hi Hk Hr0) as [Hlo _].
  assert (Hx : 0 < x1_arr k i n) by lra.
  assert (HH : 0 < H) by (unfold H; lra).
  assert (Hq : 0 < x1_arr k i n / H) by (apply Rdiv_lt_0_compat; assumption).
  rewrite Hz. unfold wind_shear. rewrite Hws. unfold V_0.
  split; [apply Rmult_lt_0_compat; [lra | apply exp_pos]|].
  split; intros Hcmp.
  - assert (1 <= x1_arr k i n / H).
    { apply Rmult_le_reg_r with H; [exact HH|].
      replace (x1_arr k i n / H * H) with (x1_arr k i n) by (field; lra). lra. }
    pose proof (Rle_Rpower_l 1 (x1_arr k i n / H) 0.2) as Hp.
    rewrite Rpower_one in Hp.
    assert (1 <= Rpower (x1_arr k i n / H) 0.2) by (apply Hp; lra).
    lra.
  - assert (x1_arr k i n / H <= 1).
    { apply Rmult_le_reg_r with H; [exact HH|].
      replace (x1_arr k i n / H * H) with (x1_arr k i n) by (field; lra). lra. }
    pose proof (Rle_Rpower_l (x1_arr k i n / H) 1 0.2) as Hp.
    rewrite Rpower_one in Hp.
    assert (Rpower (x1_arr k i n / H) 0.2 <= 1) by (apply Hp; lra).
    lra.
Qed.

(** ** Further properties of the loop: loads, stall state and wake filter *)

Lemma Rinv_nonneg (x : R) : 0 <= x -> 0 <= / x.
Proof.
  intros [Hx | Hx].
  - left. apply Rinv_0_lt_compat. exact Hx.
  - rewrite <- Hx, Rinv_0. lra.
Qed.

(** A first-order lag with a nonnegative time constant multiplies the
    distance to its target by a factor in (0, 1]. *)
Lemma decay_factor (tau : R) : 0 <= tau -> 0 < exp (- delta_t / tau) <= 1.
Proof.
  intros Ht. split; [apply exp_pos|].
  pose proof (Rinv_nonneg tau Ht) as Hi.
  rewrite <- exp_0. destruct (Req_dec (- delta_t / tau) 0) as [He | He].
  - rewrite He. lra.
  - left. apply exp_increasing. unfold Rdiv, delta_t in *. nra.
Qed.

Lemma lag_between (target old e : R) :
  0 < e <= 1 ->
  Rmin old target <= target + (old - target) * e <= Rmax old target /\
  Rabs (target + (old - target) * e - target) <= Rabs (old - target).
Proof.
  intros [He0 He1]. split.
  - unfold Rmin, Rmax. destruct (Rle_dec old target); split; nra.
  - replace (target + (old - target) * e - target) with ((old - target) * e) by ring.
    rewrite Rabs_mult, (Rabs_pos_eq e) by lra.
    pose proof (Rabs_pos (old - target)). nra.
Qed.

(** X6. At every step [n >= 1], for an element with positive radius and a
    positive convective speed [V_f_W], the inflow angle lies strictly
    between -PI/2 and PI/2 and the axial quasi-steady induced velocity
    opposes the lift: it is negative for positive lift, positive for
    negative lift, and both components vanish with the lift. *)
Theorem induced_velocity_opposes_lift (k i n : nat) :
  (1 <= n)%nat -> (i < B)%nat -> (k < length airfoils)%nat ->
  0 < r k -> 0 < V_f_W (locals k i n) ->
  - (PI / 2) < phi (locals k i n) < PI / 2 /\
  (0 < l (locals k i n) -> Wz_qs_arr k i n < 0) /\
  (l (locals k i n) < 0 -> 0 < Wz_qs_arr k i n) /\
  (l (locals k i n) = 0 -> Wz_qs_arr k i n = 0 /\ Wy_qs_arr k i n = 0).
Proof.
  intros Hn Hi Hk Hr HV. unfold Wz_qs_arr, Wy_qs_arr.
  rewrite slice_iteration by assumption.
  unfold locals, iteration in *.
  rewrite element_Wz_qs, element_Wy_qs.
  set (E := element (a14 (theta_blade_arr i n)) (theta_pitch_at n) k
                    (slice k i (n - 1))) in *.
  assert (Hphi : - (PI / 2) < phi (snd E) < PI / 2).
  { subst E. rewrite element_phi. unfold inflow_angle.
    match goal with |- _ < atan ?x < _ => pose proof (atan_bound x) end.
    lra. }
  assert (Hcos : 0 < cos (phi (snd E))) by (apply cos_gt_0; lra).
  assert (HF : 0 < F (snd E)).
  { subst E. rewrite element_F. apply prandtl_range. exact Hr. }
  pose proof PI_RGT_0 as Hpi.
  assert (HD : 0 < 4 * PI * rho * r k * F (snd E) * V_f_W (snd E)).
  { assert (0 < 4 * PI * rho * r k)
      by (unfold rho; apply Rmult_lt_0_compat; lra).
    do 2 (apply Rmult_lt_0_compat; [|assumption]). assumption. }
  set (D := 4 * PI * rho * r k * F (snd E) * V_f_W (snd E)) in *.
  assert (HDi : 0 < / D) by (apply Rinv_0_lt_compat; exact HD).
  split; [exact Hphi|]. unfold Rdiv. cbn [B INR].
  split; [|split].
  - intros Hl.
    assert (0 < l (snd E) * cos (phi (snd E))) by (apply Rmult_lt_0_compat; lra).
    nra.
  - intros Hl.
    assert (0 < (- l (snd E)) * cos (phi (snd E)))
      by (apply Rmult_lt_0_compat; lra).
    nra.
  - intros Hl. rewrite Hl. split; ring.
Qed.


Lemma stall_factor (k i n : nat) :
  0 <= c k ->
  0 < exp (- delta_t / (4 * c k / V_rel_abs (locals k i n))) <= 1.
Proof.
  intros Hc. apply decay_factor.
  unfold locals, iteration. rewrite element_V_rel_abs.
  unfold Rdiv. apply Rmult_le_pos; [lra|].
  apply Rinv_nonneg, sqrt_pos.
Qed.

Lemma fs_arr_step (k i n : nat) :
  (1 <= n)%nat -> (i < B)%nat -> (k < length airfoils)%nat ->
  fs_arr k i n =
  if use_stall
  then f_stat (lookup k i n)
       + (fs_arr k i (n - 1) - f_stat (lookup k i n))
         * exp (- delta_t / (4 * c k / V_rel_abs (locals k i n)))
  else 0.
Proof.
  intros Hn Hi Hk. unfold fs_arr at 1.
  rewrite slice_iteration by assumption.
  rewrite <- locals_coeffs. unfold locals, iteration. apply element_fs.
Qed.

(** X8. With dynamic stall switched on, at every step [n >= 1] and for an
    element with positive chord, the separation state never overshoots: it
    lies between its previous value and the static separation fraction of
    the lookup, and is no farther from that fraction than before. *)
Theorem separation_state_never_overshoots (k i n : nat) :
  use_stall = true ->
  (1 <= n)%nat -> (i < B)%nat -> (k < length airfoils)%nat ->
  0 < c k ->
  let f := f_stat (force_coeffs_10MW (aoa_deg (locals k i n)) (tc k)) in
  Rmin (fs_arr k i (n - 1)) f <= fs_arr k i n <= Rmax (fs_arr k i (n - 1)) f /\
  Rabs (fs_arr k i n - f) <= Rabs (fs_arr k i (n - 1) - f).
Proof.
  intros Hs Hn Hi Hk Hc f.
  rewrite (fs_arr_step k i n Hn Hi Hk), Hs.
  change (f_stat (lookup k i n)) with f.
  apply lag_between. apply stall_factor. lra.
Qed.

(** X9. If the polar lookup returns a static separation fraction in [0, 1]
    at every angle, the separation state of an element with positive chord
    stays in [0, 1] at every time index, whatever the switches. *)
Theorem separation_state_in_unit_interval (k i n : nat) :
  (forall aoa tck, 0 <= f_stat (force_coeffs_10MW aoa tck) <= 1) ->
  (i < B)%nat -> (k < length airfoils)%nat ->
  0 < c k ->
  0 <= fs_arr k i n <= 1.
Proof.
  intros Hf Hi Hk Hc. induction n as [|m IH].
  - unfold fs_arr. rewrite slice_0. cbn. lra.
  - rewrite fs_arr_step by (try assumption; lia).
    replace (S m - 1)%nat with m by lia.
    destruct use_stall; [|lra].
    pose proof (Hf (aoa_deg (locals k i (S m))) (tc k)) as Hfk.
    fold (lookup k i (S m)) in Hfk.
    pose proof (stall_factor k i (S m) ltac:(lra)) as He.
    pose proof (lag_between (f_stat (lookup k i (S m))) (fs_arr k i m) _ He)
      as [[Hlo Hhi] _].
    unfold Rmin, Rmax in *.
    destruct (Rle_dec (fs_arr k i m) (f_stat (lookup k i (S m)))); lra.
Qed.

(** ** Further properties of the loop: wake filter and Glauert factor *)

Lemma element_W_dwf (m14 : mat) (pitch : R) (k : nat) (prev : Slice) :
  use_dwf = true ->
  let S_n := fst (element m14 pitch k prev) in
  let L_n := snd (element m14 pitch k prev) in
  let tau_1 := 1.1 / (1 - 1.3 * a L_n) * R_rotor / V_0 in
  let tau_2 := (0.39 - 0.26 * (r k / R_rotor) ^ 2) * tau_1 in
  let Hy := Wy_qs S_n + k_dwf * tau_1 * (Wy_qs S_n - Wy_qs prev) / delta_t in
  let Hz := Wz_qs S_n + k_dwf * tau_1 * (Wz_qs S_n - Wz_qs prev) / delta_t in
  Wy_int S_n = Hy + (Wy_int prev - Hy) * exp (- delta_t / tau_1) /\
  Wz_int S_n = Hz + (Wz_int prev - Hz) * exp (- delta_t / tau_1) /\
  Wy S_n = Wy_int S_n + (Wy prev - Wy_int S_n) * exp (- delta_t / tau_2) /\
  Wz S_n = Wz_int S_n + (Wz prev - Wz_int S_n) * exp (- delta_t / tau_2).
Proof.
  intros Hd. cbv zeta. open_element. rewrite Hd. repeat split; reflexivity.
Qed.


Lemma wake_time_constants (ak rk : R) :
  ak < 1 / 1.3 -> 0 <= rk <= R_rotor ->
  0 < 1.1 / (1 - 1.3 * ak) * R_rotor / V_0 /\
  0 < (0.39 - 0.26 * (rk / R_rotor) ^ 2) * (1.1 / (1 - 1.3 * ak) * R_rotor / V_0).
Proof.
  intros Ha [Hr0 Hr1].
  assert (H1 : 0 < 1.1 / (1 - 1.3 * ak) * R_rotor / V_0).
  { unfold R_rotor, V_0.
    apply Rdiv_lt_0_compat; [|lra].
    apply Rmult_lt_0_compat; [|lra].
    apply Rdiv_lt_0_compat; lra. }
  split; [exact H1|].
  apply Rmult_lt_0_compat; [|exact H1].
  assert (Hq : 0 <= rk / R_rotor <= 1).
  { unfold R_rotor in *. split.
    - apply Rmult_le_reg_r with 89.17; [lra|].
      replace (rk / 89.17 * 89.17) with rk by (field; lra). lra.
    - apply Rmult_le_reg_r with 89.17; [lra|].
      replace (rk / 89.17 * 89.17) with rk by (field; lra). lra. }
  nra.
Qed.

(** X11. With the wake filter switched on, at every step [n >= 1], for an
    element with radius in [0, R] and an axial induction
    [a = -Wz_arr[n-1] / V_0] below [1/1.3], the second filter stage does not
    overshoot: each component of the induced velocity lies between its
    previous value and the new intermediate value, and is no farther from
    the intermediate value than before. *)
Theorem wake_filter_second_stage_contracts (k i n : nat) :
  use_dwf = true ->
  (1 <= n)%nat -> (i < B)%nat -> (k < length airfoils)%nat ->
  0 <= r k <= R_rotor ->
  - Wz_arr k i (n - 1) / V_0 < 1 / 1.3 ->
  (Rmin (Wz_arr k i (n - 1)) (Wz_int_arr k i n) <= Wz_arr k i n
   <= Rmax (Wz_arr k i (n - 1)) (Wz_int_arr k i n) /\
   Rabs (Wz_arr k i n - Wz_int_arr k i n)
   <= Rabs (Wz_arr k i (n - 1) - Wz_int_arr k i n)) /\
  (Rmin (Wy_arr k i (n - 1)) (Wy_int_arr k i n) <= Wy_arr k i n
   <= Rmax (Wy_arr k i (n - 1)) (Wy_int_arr k i n) /\
   Rabs (Wy_arr k i n - Wy_int_arr k i n)
   <= Rabs (Wy_arr k i (n - 1) - Wy_int_arr k i n)).
Proof.
  intros Hd Hn Hi Hk Hr Ha.
  unfold Wz_int_arr, Wz_arr, Wy_int_arr, Wy_arr in *.
  rewrite (slice_iteration k i n) by assumption. unfold iteration.
  destruct (element_W_dwf (a14 (theta_blade_arr i n)) (theta_pitch_at n) k
              (slice k i (n - 1)) Hd) as (_ & _ & Hy & Hz).
  rewrite element_a in Hy, Hz.
  destruct (wake_time_constants _ (r k) Ha Hr) as [_ Ht2].
  pose proof (decay_factor _ (Rlt_le _ _ Ht2)) as He.
  split.
  - rewrite Hz. apply lag_between. exact He.
  - rewrite Hy. apply lag_between. exact He.
Qed.

(** X12. The Glauert factor of the loop body is 1 up to an axial induction
    [a = -Wz_arr[n-1] / V_0] of 0.33 and [0.25 * (5 - 3 a)] above; the two
    branches do not meet at 0.33: the factor exceeds 1 for
    [0.33 < a < 1/3], never exceeds 1.0025, and is positive below
    [a = 5/3]. *)
Theorem glauert_factor_bounds (k i n : nat) :
  let ak := - Wz_arr k i (n - 1) / V_0 in
  let fg := f_g (locals k i n) in
  a (locals k i n) = ak /\
  (ak <= 0.33 -> fg = 1) /\
  (0.33 < ak -> fg = 0.25 * (5 - 3 * ak)) /\
  (0.33 < ak < 1 / 3 -> 1 < fg) /\
  fg <= 1.0025 /\
  (ak < 5 / 3 -> 0 < fg).
Proof.
  intros ak fg.
  assert (Ha : a (locals k i n) = ak).
  { unfold locals, iteration. rewrite element_a. reflexivity. }
  assert (Hfg : fg = if Rle_b ak 0.33 then 1 else 0.25 * (5 - 3 * ak)).
  { subst fg. rewrite <- Ha. unfold locals, iteration. apply element_f_g. }
  split; [exact Ha|]. rewrite Hfg.
  destruct (Rle_b ak 0.33) eqn:Hc;
    [apply Rle_b_true in Hc | apply Rle_b_false in Hc];
    repeat split; intros; lra.
Qed.

(** ** Further properties of the loop: power, thrust and pitched steps *)

Lemma length_vmult (ys zs : list R) :
  length ys = length zs -> length (vmult ys zs) = length ys.
Proof.
  revert zs. induction ys as [|y ys IH]; intros [|z zs] Hlen;
    try discriminate; [reflexivity|].
  cbn. f_equal. apply IH. injection Hlen as Hlen. exact Hlen.
Qed.

Lemma vmult_vplus (ys zs xs : list R) :
  vmult (vplus ys zs) xs = vplus (vmult ys xs) (vmult zs xs).
Proof.
  revert zs xs. induction ys as [|y ys IH]; intros [|z zs] [|x xs];
    try reflexivity.
  cbn. f_equal; [ring | apply IH].
Qed.

Lemma vmult_zeros (len : nat) (xs : list R) :
  length xs = len -> vmult (repeat 0 len) xs = repeat 0 len.
Proof.
  revert xs. induction len as [|len IH]; intros [|x xs] Hlen;
    try discriminate; [reflexivity|].
  cbn. f_equal; [ring | apply IH]. injection Hlen as Hlen. exact Hlen.
Qed.

Lemma P_step (n : nat) (st : State) :
  P (step n st) =
  omega * trapz (vmult (sum_axis1 (length airfoils)
                          (map (column pt (slices (step n st))) (seq 0 B)))
                       (map af_r airfoils))
                (map af_r airfoils).
Proof. reflexivity. Qed.

Lemma column_at (f : Slice -> R) (i n : nat) :
  (i < B)%nat ->
  column f (slices (run n)) i
  = map (fun k => f (slice k i n)) (seq 0 (length airfoils)).
Proof.
  intros Hi. unfold column, slice.
  rewrite <- (length_slices_run i n Hi).
  generalize (nth i (slices (run n)) []). intros sl.
  apply nth_ext with (d := 0) (d' := 0).
  - rewrite !length_map, length_seq. reflexivity.
  - intros k Hk. rewrite length_map in Hk.
    rewrite nth_map_seq by exact Hk.
    rewrite (nth_indep _ 0 (f zero_slice)) by (rewrite length_map; exact Hk).
    apply map_nth.
Qed.

(** X13. At every step [n >= 1] the rotor power is the rotor speed times
    the sum over the three blades of each blade's torque, the trapezoidal
    integral over the radius of its tangential load times the radius. *)
Theorem power_is_sum_of_blade_torques (n : nat) :
  (1 <= n)%nat ->
  let rs := map af_r airfoils in
  let torque := fun i =>
    trapz (vmult (map (fun k => pt_arr k i n) (seq 0 (length airfoils))) rs) rs in
  P_arr n = omega * (torque 0%nat + torque 1%nat + torque 2%nat).
Proof.
  intros Hn rs torque. destruct n as [|m]; [lia|].
  unfold P_arr. cbn [run]. rewrite P_step.
  change (step (S m) (run m)) with (run (S m)).
  cbn [B seq map]. rewrite !column_at by (unfold B; lia).
  fold rs. f_equal.
  set (c0 := map (fun k => pt (slice k 0 (S m))) (seq 0 (length airfoils))).
  set (c1 := map (fun k => pt (slice k 1 (S m))) (seq 0 (length airfoils))).
  set (c2 := map (fun k => pt (slice k 2 (S m))) (seq 0 (length airfoils))).
  assert (L0 : length c0 = length airfoils)
    by (subst c0; rewrite length_map, length_seq; reflexivity).
  assert (L1 : length c1 = length airfoils)
    by (subst c1; rewrite length_map, length_seq; reflexivity).
  assert (L2 : length c2 = length airfoils)
    by (subst c2; rewrite length_map, length_seq; reflexivity).
  assert (Lr : length rs = length airfoils)
    by (subst rs; apply length_map).
  unfold sum_axis1. cbn [fold_left].
  rewrite !vmult_vplus, vmult_zeros by exact Lr.
  assert (M0 : length (vmult c0 rs) = length airfoils)
    by (rewrite length_vmult; congruence).
  assert (M1 : length (vmult c1 rs) = length airfoils)
    by (rewrite length_vmult; congruence).
  assert (M2 : length (vmult c2 rs) = length airfoils)
    by (rewrite length_vmult; congruence).
  change (trapz (fold_left vplus [vmult c0 rs; vmult c1 rs; vmult c2 rs]
                           (repeat 0 (length airfoils))) rs
          = torque 0%nat + torque 1%nat + torque 2%nat).
  fold (sum_axis1 (length airfoils) [vmult c0 rs; vmult c1 rs; vmult c2 rs]).
  rewrite trapz_sum_axis1 by assumption.
  reflexivity.
Qed.



Lemma rad2deg_deg2rad (x : R) : rad2deg (deg2rad x) = x.
Proof. unfold rad2deg, deg2rad. pose proof PI_RGT_0. field. lra. Qed.

Lemma deg2rad_rad2deg (x : R) : deg2rad (rad2deg x) = x.
Proof. unfold rad2deg, deg2rad. pose proof PI_RGT_0. field. lra. Qed.

Lemma INR_ge (m n : nat) : (m <= n)%nat -> IZR (Z.of_nat m) <= INR n.
Proof. intros Hle. rewrite <- INR_IZR_INZ. apply le_INR. exact Hle. Qed.

Lemma INR_le (m n : nat) : (n <= m)%nat -> INR n <= IZR (Z.of_nat m).
Proof. intros Hle. rewrite <- INR_IZR_INZ. apply le_INR. exact Hle. Qed.

(** The steps whose elapsed time lies in the pitch window. *)
Lemma pitch_window_steps (n : nat) :
  Rle_b 100 (INR n * delta_t) && Rle_b (INR n * delta_t) 150
  = (Nat.leb 667 n && Nat.leb n 1000)%bool.
Proof.
  unfold delta_t.
  destruct (Nat.leb 667 n) eqn:Hlo; [apply Nat.leb_le in Hlo | apply Nat.leb_gt in Hlo].
  - pose proof (INR_ge 667 n Hlo) as H1. cbn in H1.
    replace (Rle_b 100 (INR n * 0.15)) with true
      by (symmetry; apply Rle_b_true; lra).
    destruct (Nat.leb n 1000) eqn:Hhi;
      [apply Nat.leb_le in Hhi | apply Nat.leb_gt in Hhi].
    + pose proof (INR_le 1000 n Hhi) as H2. cbn in H2.
      replace (Rle_b (INR n * 0.15) 150) with true
        by (symmetry; apply Rle_b_true; lra).
      reflexivity.
    + pose proof (INR_ge 1001 n Hhi) as H2. cbn in H2.
      replace (Rle_b (INR n * 0.15) 150) with false
        by (symmetry; apply Rle_b_false; lra).
      reflexivity.
  - assert (Hle : (n <= 666)%nat) by lia.
    pose proof (INR_le 666 n Hle) as H1. cbn in H1.
    replace (Rle_b 100 (INR n * 0.15)) with false
      by (symmetry; apply Rle_b_false; lra).
    reflexivity.
Qed.

Lemma theta_pitch_on_steps (n : nat) :
  theta_pitch_at n =
  if use_pitch && (Nat.leb 667 n && Nat.leb n 1000) then deg2rad 2 else 0.
Proof.
  rewrite theta_pitch_at_time, pitch_window_steps.
  destruct use_pitch; reflexivity.
Qed.

(** X15. With pitch control on and the step size of the script, the
    blades are pitched by 2 degrees exactly at the steps 667 to 1000 and
    by 0 at every other step. *)
Theorem pitched_steps (n : nat) :
  use_pitch = true ->
  (theta_pitch_at n = deg2rad 2 <-> (667 <= n <= 1000)%nat) /\
  (theta_pitch_at n = 0 <-> ~ (667 <= n <= 1000)%nat).
Proof.
  intros Hp. rewrite theta_pitch_on_steps, Hp. cbn [andb].
  assert (Hne : deg2rad 2 <> 0).
  { unfold deg2rad. pose proof PI_RGT_0. apply Rgt_not_eq. lra. }
  destruct (Nat.leb 667 n) eqn:Hlo;
    [apply Nat.leb_le in Hlo | apply Nat.leb_gt in Hlo];
    destruct (Nat.leb n 1000) eqn:Hhi;
    [apply Nat.leb_le in Hhi | apply Nat.leb_gt in Hhi
     | apply Nat.leb_le in Hhi | apply Nat.leb_gt in Hhi];
    cbn [andb]; repeat split; intros; try lia; try congruence;
    try reflexivity; exfalso; auto; lia.
Qed.

(** X16. The pitch enters the angle of attack in degrees: at the steps
    667 to 1000 of a run with pitch control the angle of attack is the
    inflow angle in degrees minus the twist minus 2, and at every other
    step, or without pitch control, it is the inflow angle in degrees minus
    the twist. *)
Theorem angle_of_attack_under_pitch (k i n : nat) :
  let phi_deg := rad2deg (phi (locals k i n)) in
  (use_pitch = true -> (667 <= n <= 1000)%nat ->
   aoa_deg (locals k i n) = phi_deg - beta_deg k - 2) /\
  (use_pitch = false \/ ~ (667 <= n <= 1000)%nat ->
   aoa_deg (locals k i n) = phi_deg - beta_deg k).
Proof.
  intros phi_deg.
  assert (Haoa : aoa_deg (locals k i n)
                 = phi_deg - (beta_deg k + rad2deg (theta_pitch_at n))).
  { subst phi_deg. unfold locals, iteration. apply element_aoa_deg. }
  rewrite Haoa, theta_pitch_on_steps. split.
  - intros Hp [Hlo Hhi]. rewrite Hp.
    apply Nat.leb_le in Hlo. apply Nat.leb_le in Hhi. rewrite Hlo, Hhi.
    cbn [andb]. rewrite rad2deg_deg2rad. lra.
  - intros Hout.
    replace (use_pitch && (Nat.leb 667 n && Nat.leb n 1000)) with false.
    + unfold rad2deg. lra.
    + symmetry. destruct Hout as [Hp | Hn]; [rewrite Hp; reflexivity|].
      apply andb_false_iff. right. apply andb_false_iff.
      destruct (Nat.leb 667 n) eqn:Hlo; [|left; reflexivity].
      right. apply Nat.leb_gt. apply Nat.leb_le in Hlo. lia.
Qed.


End Simulation.

(** ** Instances on the sample blade *)

Lemma tip_load_zero_witness :
  pn_arr sample_blade sample_polar false false false false 1 0 1 = 0 /\
  pt_arr sample_blade sample_polar false false false false 1 0 1 = 0.
Proof.
  apply (tip_load_zero sample_blade sample_polar false false false false 0 1);
    simpl; unfold B; lia.
Defined.

Lemma no_dwf_induced_velocity_is_quasi_steady_witness :
  Wz_arr sample_blade sample_polar true true false true 0 2 3
  = Wz_qs_arr sample_blade sample_polar true true false true 0 2 3 /\
  Wy_arr sample_blade sample_polar true true false true 0 2 3
  = Wy_qs_arr sample_blade sample_polar true true false true 0 2 3.
Proof.
  apply (no_dwf_induced_velocity_is_quasi_steady
           sample_blade sample_polar true true false true 0 2 3);
    [reflexivity | lia | unfold B; lia | simpl; lia].
Defined.

Lemma no_stall_lift_is_static_lookup_witness :
  cl_arr sample_blade sample_polar true true true false 0 1 2 = 1.
Proof.
  apply (no_stall_lift_is_static_lookup
           sample_blade sample_polar true true true false 0 1 2);
    [reflexivity | lia | unfold B; lia | simpl; lia].
Defined.

Lemma stall_separation_and_lift_witness :
  cl_arr sample_blade sample_polar true true true true 0 1 2
  = 1 * 1 + (1 - fs_arr sample_blade sample_polar true true true true 0 1 2) * 1.
Proof.
  apply (stall_separation_and_lift
           sample_blade sample_polar true true true true 0 1 2);
    [reflexivity | lia | unfold B; lia | simpl; lia].
Defined.

Lemma blade_spacing_misses_phase_offset_witness :
  0.1 < (theta_blade_arr sample_blade sample_polar true true true true 1 1
         - theta_blade_arr sample_blade sample_polar true true true true 0 1)
        - 2 * PI / 3.
Proof.
  apply (blade_spacing_misses_phase_offset
           sample_blade sample_polar true true true true 1).
  lia.
Defined.

Lemma pitch_is_function_of_time_witness :
  theta_pitch_at sample_blade sample_polar true true true true 800 = deg2rad 2.
Proof.
  apply (pitch_is_function_of_time
           sample_blade sample_polar true true true true 800);
    [lia | reflexivity | ].
  rewrite (INR_IZR_INZ 800). simpl Z.of_nat. unfold delta_t. lra.
Defined.

Lemma thrust_is_sum_of_blade_thrusts_witness :
  T_arr sample_blade sample_polar true true true true 5
  = T_all_arr sample_blade sample_polar true true true true 0 5
    + T_all_arr sample_blade sample_polar true true true true 1 5
    + T_all_arr sample_blade sample_polar true true true true 2 5.
Proof.
  apply (thrust_is_sum_of_blade_thrusts
           sample_blade sample_polar true true true true 5).
  lia.
Defined.

Lemma prandtl_factor_range_witness :
  0 < F (locals sample_blade sample_polar true true true true 0 1 2) <= 1.
Proof.
  apply (prandtl_factor_range
           sample_blade sample_polar true true true true 0 1 2);
    [lia | unfold B; lia | simpl; lia | unfold r, airfoil; cbn; lra].
Defined.

Lemma inflow_angle_is_arctan_of_quotient_witness :
  phi (locals sample_blade sample_polar true true true true 0 1 2)
  = atan (V_rel_z_arr sample_blade sample_polar true true true true 0 1 2
          / (- V_rel_y_arr sample_blade sample_polar true true true true 0 1 2)).
Proof.
  apply (inflow_angle_is_arctan_of_quotient
           sample_blade sample_polar true true true true 0 1 2);
    [lia | unfold B; lia | simpl; lia].
Defined.

Lemma tip_induced_velocity_uses_unzeroed_lift_witness :
  Wz_qs_arr sample_blade sample_polar false false false false 1 0 1 <> 0 /\
  pn_arr sample_blade sample_polar false false false false 1 0 1 = 0 /\
  pt_arr sample_blade sample_polar false false false false 1 0 1 = 0.
Proof.
  destruct (tip_induced_velocity_uses_unzeroed_lift
              sample_blade sample_polar false false false false 0 1)
    as (Hl & _ & _ & Hpn & Hpt & Hnz);
    [lia | unfold B; lia | simpl; lia |].
  split; [|split; [exact Hpn | exact Hpt]].
  destruct (first_step_speeds sample_blade sample_polar false false false false 1 0)
    as [HV Habs].
  apply Hnz.
  - unfold r, airfoil. cbn. lra.
  - change (length sample_blade - 1)%nat with 1%nat in *.
    rewrite (lift_of_stored_cl sample_blade sample_polar false false false false
               1 0 1) by (try lia; try (unfold B; lia); simpl; lia).
    assert (Hcl : cl_arr sample_blade sample_polar false false false false 1 0 1 = 1).
    { unfold cl_arr. rewrite slice_iteration by (try lia; try (unfold B; lia); simpl; lia).
      unfold iteration. rewrite element_cl. reflexivity. }
    rewrite Hcl.
    assert (Hc : c sample_blade 1 = 1) by reflexivity.
    rewrite Hc. unfold rho.
    assert (0 < V_rel_abs (locals sample_blade sample_polar false false false false 1 0 1) ^ 2)
      by (apply pow_lt; exact Habs).
    lra.
  - change (length sample_blade - 1)%nat with 1%nat. lra.
Defined.

(** ** A run in which the in-plane relative velocity turns positive

    The blade has the tip element alone, the polar returns a large negative
    lift coefficient and all switches are off.  The first step induces a
    tangential velocity larger than the rotational speed of the element, so
    at the second step [V_rel_y] is positive. *)

Local Abbreviation tip_pass :=
  (iteration tip_only_blade steep_polar false false false false 0 0 1).

Local Abbreviation tip_speed := (omega * 89.17).

Ltac in_range := try lia; try (unfold B; lia); simpl; lia.

Lemma tip_speed_bounds : 64 < tip_speed < 86.
Proof. unfold omega. pose proof PI_gt_3. pose proof PI_4. lra. Qed.

Lemma tip_pass_V0 : V0y (fst tip_pass) = 0 /\ V0z (fst tip_pass) = 9.
Proof.
  unfold iteration.
  split; [apply element_V0|].
  rewrite element_V0z_eq. unfold wind_shear, Rpower, V_0.
  rewrite Rmult_0_l, exp_0. lra.
Qed.

Lemma tip_pass_V_rel :
  V_rel_y (fst tip_pass) = - tip_speed /\ V_rel_z (fst tip_pass) = 9.
Proof.
  destruct tip_pass_V0 as [Hy Hz]. unfold iteration in *.
  rewrite element_V_rel_y, element_V_rel_z, Hy, Hz.
  cbn [Nat.sub]. rewrite slice_0. cbn [Wy Wz zero_slice].
  unfold theta_cone. rewrite cos_0.
  unfold r, airfoil. cbn [nth tip_only_blade af_r]. split; lra.
Qed.

Lemma tip_pass_lift : l (snd tip_pass) = - 6125 * (tip_speed ^ 2 + 81).
Proof.
  destruct tip_pass_V_rel as [Hy Hz]. unfold iteration in *.
  rewrite element_l, element_V_rel_abs, element_cl, element_coeffs, Hy, Hz.
  cbn [steep_polar cl].
  rewrite pow2_sqrt
    by (assert (0 <= (- tip_speed) ^ 2) by apply pow2_ge_0; lra).
  unfold c, airfoil, rho. cbn [nth tip_only_blade af_c]. lra.
Qed.

Lemma tip_pass_V_f_W : V_f_W (snd tip_pass) = 9.
Proof.
  destruct tip_pass_V0 as [Hy Hz]. unfold iteration in *.
  rewrite element_V_f_W, element_f_g, element_a, Hy, Hz.
  cbn [Nat.sub]. rewrite slice_0. cbn [Wz zero_slice].
  replace (- 0 / V_0) with 0 by (unfold V_0; lra).
  replace (Rle_b 0 0.33) with true by (symmetry; apply Rle_b_true; lra).
  replace (0 ^ 2 + (9 + 1 * 0) ^ 2) with (9 * 9) by lra.
  apply sqrt_square. lra.
Qed.

Lemma tip_pass_F : F (snd tip_pass) = 1.
Proof.
  unfold iteration. rewrite element_F.
  apply prandtl_near_zero_or_tip. right.
  unfold r, airfoil, R_rotor. cbn [nth tip_only_blade af_r]. lra.
Qed.

Lemma tip_pass_sin_phi : 0.05 <= sin (phi (snd tip_pass)).
Proof.
  destruct tip_pass_V_rel as [Hy Hz]. pose proof tip_speed_bounds as [HW1 HW2].
  unfold iteration in *.
  rewrite element_phi, Hy, Hz. unfold inflow_angle.
  rewrite Ropp_involutive, sin_atan.
  set (q := 9 / tip_speed).
  assert (Hq : 0.1 <= q <= 1).
  { unfold q. split.
    - apply Rmult_le_reg_r with tip_speed; [lra|].
      replace (9 / tip_speed * tip_speed) with 9 by (field; lra). lra.
    - apply Rmult_le_reg_r with tip_speed; [lra|].
      replace (9 / tip_speed * tip_speed) with 9 by (field; lra). lra. }
  assert (Hs : 0 < sqrt (1 + q²) <= 2).
  { split; [apply sqrt_lt_R0; unfold Rsqr; nra|].
    rewrite <- (sqrt_square 2) by lra.
    apply sqrt_le_1_alt. unfold Rsqr. nra. }
  apply Rmult_le_reg_r with (sqrt (1 + q²)); [lra|].
  replace (q / sqrt (1 + q²) * sqrt (1 + q²)) with q by (field; lra).
  nra.
Qed.

Lemma Wy_after_first_step :
  86 < Wy_arr tip_only_blade steep_polar false false false false 0 0 1.
Proof.
  unfold Wy_arr. rewrite slice_iteration by in_range.
  pose proof tip_pass_lift as Hl. pose proof tip_pass_V_f_W as HV.
  pose proof tip_pass_F as HF. pose proof tip_pass_sin_phi as Hs.
  pose proof tip_speed_bounds as [HW1 HW2].
  pose proof PI_gt_3. pose proof PI_4.
  unfold iteration in *.
  match goal with
  | |- _ < Wy (fst (element ?al ?fc ?ws ?ud ?us ?m ?p ?k ?prev)) =>
      destruct (element_W_no_dwf al fc ws ud us m p k prev eq_refl) as [_ HWy]
  end.
  rewrite HWy, element_Wy_qs, Hl, HV, HF.
  match type of Hs with _ <= sin ?x => set (s := sin x) in * end.
  unfold r, airfoil, rho. cbn [nth tip_only_blade af_r B INR].
  assert (HD : 0 < 4 * PI * 1.225 * 89.17 * 1 * 9 <= 15731) by (split; nra).
  set (D := 4 * PI * 1.225 * 89.17 * 1 * 9) in *.
  apply Rmult_lt_reg_r with D; [lra|].
  replace (- (1 + 1 + 1) * (-6125 * (tip_speed ^ 2 + 81)) * s / D * D)
    with (18375 * (tip_speed ^ 2 + 81) * s) by (field; lra).
  assert (4096 <= tip_speed ^ 2 + 81) by nra.
  assert (18375 * 4096 * 0.05 <= 18375 * (tip_speed ^ 2 + 81) * s)
    by (apply Rmult_le_compat; lra).
  nra.
Qed.

Lemma in_plane_velocity_turns_positive :
  0 < V_rel_y_arr tip_only_blade steep_polar false false false false 0 0 2.
Proof.
  pose proof Wy_after_first_step as HWy. pose proof tip_speed_bounds as [_ HW].
  unfold V_rel_y_arr, Wy_arr in *.
  rewrite slice_iteration by in_range.
  unfold iteration. rewrite element_V_rel_y.
  match goal with
  | |- _ < V0y (fst (element ?al ?fc ?ws ?ud ?us (a14 ?th) ?p ?k ?prev)) + _ - _ =>
      destruct (element_V0 al fc ws ud us th p k prev) as [Hy _]
  end.
  rewrite Hy. cbn [Nat.sub].
  unfold theta_cone. rewrite cos_0.
  unfold r, airfoil in *. cbn [nth tip_only_blade af_r]. lra.
Qed.

(** C4 as stated fails.  On the values: with both relative-velocity
    components equal to 1 the inflow angle of the loop body is [-PI/4] while
    [atan2 (1, -1)] is [3*PI/4].  In a run: on the one-element blade above,
    at step 2 the in-plane relative velocity is positive and the inflow
    angle of the loop body is not [atan2 (V_rel_z, -V_rel_y)]. *)
Lemma inflow_angle_differs_from_atan2 :
  (inflow_angle 1 1 = - (PI / 4) /\
   atan2 1 (- (1)) = 3 * (PI / 4) /\
   inflow_angle 1 1 <> atan2 1 (- (1))) /\
  (0 < V_rel_y_arr tip_only_blade steep_polar false false false false 0 0 2 /\
   phi (locals tip_only_blade steep_polar false false false false 0 0 2)
   <> atan2 (V_rel_z_arr tip_only_blade steep_polar false false false false 0 0 2)
            (- V_rel_y_arr tip_only_blade steep_polar false false false false 0 0 2)).
Proof.
  split.
  - assert (Hq : 1 / - (1) = - (1)) by (field; lra).
    assert (H1 : inflow_angle 1 1 = - (PI / 4)).
    { unfold inflow_angle. rewrite Hq, atan_opp, atan_1. reflexivity. }
    assert (H2 : atan2 1 (- (1)) = 3 * (PI / 4)).
    { unfold atan2.
      replace (Rlt_b 0 (- (1))) with false by (symmetry; apply Rlt_b_false; lra).
      replace (Rlt_b (- (1)) 0) with true by (symmetry; apply Rlt_b_true; lra).
      replace (Rle_b 0 1) with true by (symmetry; apply Rle_b_true; lra).
      rewrite Hq, atan_opp, atan_1. lra. }
    split; [exact H1|]. split; [exact H2|].
    rewrite H1, H2. pose proof PI_RGT_0. lra.
  - split; [apply in_plane_velocity_turns_positive|].
    unfold locals, iteration. rewrite element_phi.
    fold (iteration tip_only_blade steep_polar false false false false 0 0 2).
    rewrite <- slice_iteration by in_range.
    apply inflow_angle_left_half_plane.
    apply in_plane_velocity_turns_positive.
Qed.

(** ** Instances of the further properties *)

Lemma element_on_rotor_circle_witness :
  (x1_arr sample_blade sample_polar true true true true 0 1 2 - H) ^ 2
  + y1_arr sample_blade sample_polar true true true true 0 1 2 ^ 2
  = r sample_blade 0 ^ 2.
Proof.
  apply (element_on_rotor_circle
           sample_blade sample_polar true true true true 0 1 2); in_range.
Defined.

Lemma element_height_positive_witness :
  0 < x1_arr sample_blade sample_polar true true true true 1 2 3.
Proof.
  apply (element_height_positive
           sample_blade sample_polar true true true true 1 2 3);
    [lia | unfold B; lia | simpl; lia |].
  unfold r, airfoil, H. cbn. lra.
Defined.

Lemma free_stream_in_blade_frame_witness :
  V0y_arr sample_blade sample_polar false true true true 0 1 2 = 0.
Proof.
  apply (free_stream_in_blade_frame
           sample_blade sample_polar false true true true 0 1 2); in_range.
Defined.

Lemma wind_shear_follows_height_witness :
  0 < V0z_arr sample_blade sample_polar true true true true 1 0 4.
Proof.
  apply (wind_shear_follows_height
           sample_blade sample_polar true true true true 1 0 4);
    [reflexivity | lia | unfold B; lia | simpl; lia |].
  unfold r, airfoil, H. cbn. lra.
Defined.

Lemma azimuth_closed_form_witness :
  theta_blade_arr sample_blade sample_polar true true true true 1 3
  = INR 3 * (omega * delta_t) + omega * delta_t + 0.666 * PI.
Proof.
  apply (azimuth_closed_form sample_blade sample_polar true true true true 3).
  lia.
Defined.

Lemma induced_velocity_opposes_lift_witness :
  - (PI / 2) < phi (locals sample_blade sample_polar false false false false 0 0 1)
  < PI / 2.
Proof.
  apply (induced_velocity_opposes_lift
           sample_blade sample_polar false false false false 0 0 1);
    [lia | unfold B; lia | simpl; lia | unfold r, airfoil; cbn; lra |].
  apply first_step_speeds.
Defined.


Lemma separation_state_never_overshoots_witness :
  Rabs (fs_arr sample_blade sample_polar true true true true 0 1 2 - 1)
  <= Rabs (fs_arr sample_blade sample_polar true true true true 0 1 (2 - 1) - 1).
Proof.
  apply (separation_state_never_overshoots
           sample_blade sample_polar true true true true 0 1 2);
    [reflexivity | lia | unfold B; lia | simpl; lia |].
  unfold c, airfoil. cbn. lra.
Defined.

Lemma separation_state_in_unit_interval_witness :
  0 <= fs_arr sample_blade sample_polar true true true true 0 1 7 <= 1.
Proof.
  apply (separation_state_in_unit_interval
           sample_blade sample_polar true true true true 0 1 7);
    [intros aoa tck; cbn; lra | unfold B; lia | simpl; lia |].
  unfold c, airfoil. cbn. lra.
Defined.



Lemma wake_filter_second_stage_contracts_witness :
  Rabs (Wz_arr sample_blade sample_polar true true true true 0 0 1
        - Wz_int_arr sample_blade sample_polar true true true true 0 0 1)
  <= Rabs (Wz_arr sample_blade sample_polar true true true true 0 0 (1 - 1)
           - Wz_int_arr sample_blade sample_polar true true true true 0 0 1).
Proof.
  apply (wake_filter_second_stage_contracts
           sample_blade sample_polar true true true true 0 0 1);
    [reflexivity | lia | unfold B; lia | simpl; lia | |].
  - unfold r, airfoil, R_rotor. cbn. lra.
  - unfold Wz_arr. cbn [Nat.sub]. rewrite slice_0. cbn. unfold V_0. lra.
Defined.

Lemma glauert_factor_bounds_witness :
  f_g (locals sample_blade sample_polar true true true true 0 0 1) <= 1.0025.
Proof.
  apply (glauert_factor_bounds sample_blade sample_polar true true true true 0 0 1).
Defined.

Lemma power_is_sum_of_blade_torques_witness :
  exists t0 t1 t2,
    P_arr sample_blade sample_polar true true true true 4 = omega * (t0 + t1 + t2).
Proof.
  eexists _, _, _.
  apply (power_is_sum_of_blade_torques
           sample_blade sample_polar true true true true 4).
  lia.
Defined.



Lemma pitched_steps_witness :
  theta_pitch_at sample_blade sample_polar true true true true 700 = deg2rad 2.
Proof.
  apply (pitched_steps sample_blade sample_polar true true true true 700);
    [reflexivity | lia].
Defined.

Lemma angle_of_attack_under_pitch_witness :
  aoa_deg (locals sample_blade sample_polar true true true true 0 1 700)
  = rad2deg (phi (locals sample_blade sample_polar true true true true 0 1 700))
    - beta_deg sample_blade 0 - 2.
Proof.
  apply (angle_of_attack_under_pitch
           sample_blade sample_polar true true true true 0 1 700);
    [reflexivity | lia].
Defined.

(** ** The spring-mounted airfoil: properties of [pend] *)

Section PendProperties.

Variables interp_cl interp_f_stat interp_cl_inv interp_cl_fs : R -> R.

Local Abbreviation pend :=
  (Pend.pend interp_cl interp_f_stat interp_cl_inv interp_cl_fs).


Lemma relative_speed (z2 V_0 : R) :
  0 < V_0 ->
  sqrt (z2 ^ 2 + V_0 ^ 2) ^ 2 * cos (atan (z2 / V_0))
  = V_0 * sqrt (z2 ^ 2 + V_0 ^ 2) /\
  V_0 <= sqrt (z2 ^ 2 + V_0 ^ 2).
Proof.
  intros HV.
  assert (Hx : 0 < 1 + (z2 / V_0)²) by (unfold Rsqr; nra).
  assert (Hs : 0 < sqrt (1 + (z2 / V_0)²)) by (apply sqrt_lt_R0; exact Hx).
  assert (Hsum : z2 ^ 2 + V_0 ^ 2 = (V_0 * V_0) * (1 + (z2 / V_0)²)).
  { unfold Rsqr. field. lra. }
  assert (Hrel : sqrt (z2 ^ 2 + V_0 ^ 2) = V_0 * sqrt (1 + (z2 / V_0)²)).
  { rewrite Hsum, sqrt_mult by nra. rewrite sqrt_square by lra. reflexivity. }
  split.
  - rewrite cos_atan, Hrel. field. lra.
  - rewrite Hrel.
    assert (1 <= sqrt (1 + (z2 / V_0)²)).
    { rewrite <- sqrt_1 at 1. apply sqrt_le_1_alt. unfold Rsqr. nra. }
    nra.
Qed.

(** X18. For a positive wind speed the aerodynamic force of [pend] is
    [0.5 * rho * c * s * cl * V_0 * V_rel] with
    [V_rel = sqrt (z2^2 + V_0^2)]: the cosine of the flow angle turns one
    factor [V_rel] of the dynamic pressure into [V_0].  Without dynamic
    stall [cl] is the interpolated static lift, with dynamic stall it is
    [z3 * cl_inv + (1 - z3) * cl_fs]. *)
Theorem pend_force_is_linear_in_relative_speed
    (z1 z2 z3 t m k c V_0 alpha_g rho s : R) :
  0 < V_0 ->
  let V_rel := sqrt (z2 ^ 2 + V_0 ^ 2) in
  let alpha_deg := rad2deg (alpha_g + atan (z2 / V_0)) in
  pend [z1; z2] t m k c V_0 alpha_g rho s false
  = Some [z2;
          (- k * z1 - 0.5 * rho * c * s * interp_cl alpha_deg * V_0 * V_rel) / m] /\
  pend [z1; z2; z3] t m k c V_0 alpha_g rho s true
  = Some [z2;
          (- k * z1
           - 0.5 * rho * c * s
             * (z3 * interp_cl_inv alpha_deg + (1 - z3) * interp_cl_fs alpha_deg)
             * V_0 * V_rel) / m;
          (interp_f_stat alpha_deg - z3) / (4 * c / V_rel)].
Proof.
  intros HV V_rel alpha_deg.
  destruct (relative_speed z2 V_0 HV) as [Hcos _]. fold V_rel in Hcos.
  unfold Pend.pend, Pend.unpack. cbv zeta. fold V_rel alpha_deg.
  split; do 2 f_equal; f_equal; f_equal.
  - transitivity (- k * z1 - 0.5 * rho * c * s * interp_cl alpha_deg
                             * (V_rel ^ 2 * cos (atan (z2 / V_0)))); [ring|].
    rewrite Hcos. ring.
  - transitivity (- k * z1
                  - 0.5 * rho * c * s
                    * (z3 * interp_cl_inv alpha_deg
                       + (1 - z3) * interp_cl_fs alpha_deg)
                    * (V_rel ^ 2 * cos (atan (z2 / V_0)))); [ring|].
    rewrite Hcos. ring.
Qed.

(** X19. The airfoil at rest in its static equilibrium stays there: for a
    positive wind speed, a nonzero spring constant and mass, zero velocity
    and the deflection [-F/k] that balances the static aerodynamic force
    [F = 0.5 * rho * V_0^2 * c * s * cl], [pend] returns the zero
    derivative; with dynamic stall (and a nonzero chord) this needs the
    separation state to equal the static separation fraction, and [cl] is
    the blended lift at that state. *)
Theorem pend_static_equilibrium (t m k c V_0 alpha_g rho s : R) :
  0 < V_0 -> k <> 0 -> m <> 0 ->
  let alpha_deg := rad2deg alpha_g in
  let force := fun cl => 0.5 * rho * V_0 ^ 2 * c * s * cl in
  pend [- force (interp_cl alpha_deg) / k; 0] t m k c V_0 alpha_g rho s false
  = Some [0; 0] /\
  (c <> 0 ->
   let f := interp_f_stat alpha_deg in
   let cl := f * interp_cl_inv alpha_deg + (1 - f) * interp_cl_fs alpha_deg in
   pend [- force cl / k; 0; f] t m k c V_0 alpha_g rho s true
   = Some [0; 0; 0]).
Proof.
  intros HV Hk Hm alpha_deg force.
  assert (Hphi : atan (0 / V_0) = 0).
  { replace (0 / V_0) with 0 by (field; lra). apply atan_0. }
  assert (Hrel : sqrt (0 ^ 2 + V_0 ^ 2) = V_0).
  { replace (0 ^ 2 + V_0 ^ 2) with (V_0 * V_0) by ring.
    apply sqrt_square. lra. }
  unfold Pend.pend, Pend.unpack. cbv zeta.
  rewrite Hphi, Hrel, cos_0, Rplus_0_r. fold alpha_deg.
  split.
  - do 2 f_equal. f_equal. subst force. cbv beta. field. split; assumption.
  - intros Hc. do 2 f_equal. f_equal.
    + subst force. cbv beta. field. split; assumption.
    + f_equal. field. split; [lra | assumption].
Qed.

(** X20. With dynamic stall, a positive chord and a positive wind speed,
    the separation state of [pend] is driven toward the static separation
    fraction: its derivative is [(f_stat - z3) * V_rel / (4 c)], has the
    sign of [f_stat - z3], vanishes only at [z3 = f_stat], and is at least
    as fast as at rest, where [V_rel = V_0]. *)
Theorem pend_separation_relaxes (z1 z2 z3 t m k c V_0 alpha_g rho s : R) :
  0 < V_0 -> 0 < c ->
  let V_rel := sqrt (z2 ^ 2 + V_0 ^ 2) in
  let f := interp_f_stat (rad2deg (alpha_g + atan (z2 / V_0))) in
  exists d2 d3,
    pend [z1; z2; z3] t m k c V_0 alpha_g rho s true = Some [z2; d2; d3] /\
    d3 = (f - z3) * V_rel / (4 * c) /\
    0 <= (f - z3) * d3 /\
    (d3 = 0 <-> z3 = f) /\
    Rabs (f - z3) * V_0 / (4 * c) <= Rabs d3.
Proof.
  intros HV Hc V_rel f.
  destruct (relative_speed z2 V_0 HV) as [_ Hge]. fold V_rel in Hge.
  assert (HVr : 0 < V_rel) by lra.
  unfold Pend.pend, Pend.unpack. cbv zeta. fold V_rel f.
  eexists _, _. split; [reflexivity|].
  assert (Hd3 : (f - z3) / (4 * c / V_rel) = (f - z3) * V_rel / (4 * c))
    by (field; lra).
  rewrite Hd3. split; [reflexivity|].
  assert (Hq : 0 < V_rel / (4 * c)) by (apply Rdiv_lt_0_compat; lra).
  replace ((f - z3) * V_rel / (4 * c)) with ((f - z3) * (V_rel / (4 * c)))
    by (field; lra).
  split.
  { replace ((f - z3) * ((f - z3) * (V_rel / (4 * c))))
      with ((f - z3) * (f - z3) * (V_rel / (4 * c))) by ring.
    apply Rmult_le_pos; [apply (Rle_0_sqr (f - z3)) | lra]. }
  split.
  - split; intros Hz; [|rewrite Hz; ring].
    apply Rmult_integral in Hz. destruct Hz; lra.
  - rewrite Rabs_mult, (Rabs_pos_eq (V_rel / (4 * c))) by lra.
    replace (Rabs (f - z3) * V_0 / (4 * c))
      with (Rabs (f - z3) * (V_0 / (4 * c))) by (field; lra).
    apply Rmult_le_compat_l; [apply Rabs_pos|].
    unfold Rdiv. apply Rmult_le_compat_r; [|exact Hge].
    left. apply Rinv_0_lt_compat. lra.
Qed.

End PendProperties.

(** Instances with the constants of the script ([m = 1], [k = 61.7],
    [c = 0.2], [V_0 = 2], [rho = 1.225], [s = 1], [alpha_g = 0]) and flat
    lookup tables. *)


Lemma pend_force_is_linear_in_relative_speed_witness :
  Pend.pend (fun _ => 1) (fun _ => 1) (fun _ => 1) (fun _ => 1)
            [0.02; 0.5] 0 1 61.7 0.2 2 (deg2rad 0) 1.225 1 false
  = Some [0.5;
          (- (61.7) * 0.02
           - 0.5 * 1.225 * 0.2 * 1 * 1 * 2 * sqrt (0.5 ^ 2 + 2 ^ 2)) / 1].
Proof.
  destruct (pend_force_is_linear_in_relative_speed
              (fun _ => 1) (fun _ => 1) (fun _ => 1) (fun _ => 1)
              0.02 0.5 0 0 1 61.7 0.2 2 (deg2rad 0) 1.225 1)
    as [Hforce _]; [lra|].
  exact Hforce.
Defined.

Lemma pend_static_equilibrium_witness :
  Pend.pend (fun _ => 1) (fun _ => 1) (fun _ => 1) (fun _ => 1)
            [- (0.5 * 1.225 * 2 ^ 2 * 0.2 * 1 * 1) / 61.7; 0]
            0 1 61.7 0.2 2 (deg2rad 0) 1.225 1 false
  = Some [0; 0].
Proof.
  destruct (pend_static_equilibrium
              (fun _ => 1) (fun _ => 1) (fun _ => 1) (fun _ => 1)
              0 1 61.7 0.2 2 (deg2rad 0) 1.225 1)
    as [Hrest _]; [lra | lra | lra |].
  exact Hrest.
Defined.

Lemma pend_separation_relaxes_witness :
  exists d2 d3,
    Pend.pend (fun _ => 1) (fun _ => 1) (fun _ => 1) (fun _ => 1)
              [0.02; 0; 0] 0 1 61.7 0.2 2 (deg2rad 0) 1.225 1 true
    = Some [0; d2; d3] /\
    0 <= (1 - 0) * d3.
Proof.
  destruct (pend_separation_relaxes
              (fun _ => 1) (fun _ => 1) (fun _ => 1) (fun _ => 1)
              0.02 0 0 0 1 61.7 0.2 2 (deg2rad 0) 1.225 1)
    as (d2 & d3 & Hp & _ & Hs & _); [lra | lra |].
  exists d2, d3. split; assumption.
Defined.
